(** * A shallow embedding of the RedisJSON client ([src/lib/redis-json.js])

    The client is an ES class whose methods are [async] functions issuing
    remote commands one after the other.  We model:
    - JS values as the inductive [val] (integer numbers only);
    - the argument of [$_pathMaker] as [pin] (a text or an array of segments);
    - every [await]ed chain as a state-and-exception monad [M] over a [world]
      holding the command-handle cache, the remote store and a log of the
      remote calls issued, the remote itself being a parameter [remote]. *)

From Stdlib Require Import Bool ZArith List String Ascii Lia.
From Stdlib Require Import Numbers.DecimalString.
From Stdlib Require Numbers.DecimalFacts Numbers.DecimalPos.
Import ListNotations.
Open Scope string_scope.
Set Warnings "-register-all".

(* ------------------------------------------------------------------ *)
(** ** JS values *)

Inductive val : Type :=
| VUndef
| VNull
| VBool (b : bool)
| VNum (n : Z)
| VStr (s : string)
| VArr (l : list val)
| VObj (props : list (string * val))   (* own properties, insertion order *)
| VErr (message : string).             (* an [Error] instance *)

(** [typeof v === 'object'] (null, arrays, plain objects, errors). *)
Definition typeof_object (v : val) : bool :=
  match v with
  | VNull | VArr _ | VObj _ | VErr _ => true
  | _ => false
  end.

(** [v instanceof Error] *)
Definition is_error (v : val) : bool :=
  match v with VErr _ => true | _ => false end.

(** [v === null] *)
Definition is_null (v : val) : bool :=
  match v with VNull => true | _ => false end.

(** Decimal rendering of an integer, as [String(n)] / template literals. *)
Definition Z_to_js_string (n : Z) : string :=
  NilEmpty.string_of_int (Z.to_int n).

(** [o[k] = v] on a plain object: replaces the value of an existing own
    property in place, appends a new one otherwise. *)
Fixpoint obj_set (props : list (string * val)) (k : string) (v : val)
  : list (string * val) :=
  match props with
  | [] => [(k, v)]
  | (k', v') :: rest =>
      if String.eqb k k' then (k, v) :: rest else (k', v') :: obj_set rest k v
  end.

(* ------------------------------------------------------------------ *)
(** ** Strings as the JS code uses them *)

Fixpoint list_of_string (s : string) : list ascii :=
  match s with EmptyString => [] | String c s' => c :: list_of_string s' end.

Fixpoint string_of_list (l : list ascii) : string :=
  match l with [] => EmptyString | c :: l' => String c (string_of_list l') end.

(** [s.startsWith(p)] *)
Definition startsWith (p s : string) : bool := String.prefix p s.

(** [s.endsWith(p)] *)
Definition endsWith (p s : string) : bool :=
  let n := String.length s in
  let m := String.length p in
  (m <=? n)%nat && String.eqb (String.substring (n - m) m s) p.

(** [s.split(sep)] for a one-character separator: always at least one part. *)
Fixpoint split_chars (sep : ascii) (l : list ascii) : list (list ascii) :=
  match l with
  | [] => [[]]
  | c :: l' =>
      match split_chars sep l' with
      | [] => [[]]
      | cur :: parts =>
          if Ascii.eqb c sep then [] :: cur :: parts else (c :: cur) :: parts
      end
  end.

Definition split (sep : ascii) (s : string) : list string :=
  map string_of_list (split_chars sep (list_of_string s)).

(* ------------------------------------------------------------------ *)
(** ** [isNaN] on a string: ECMAScript StringToNumber

    [isNaN(p)] coerces [p] with [Number(p)]: leading and trailing white
    space is stripped, the empty text is [0], otherwise the text must be a
    StrDecimalLiteral ([+]/[-], [Infinity], digits with optional fraction
    and exponent) or a NonDecimalIntegerLiteral ([0x..], [0o..], [0b..]).
    Characters are taken as code units 0..255. *)

Definition js_white_space (c : ascii) : bool :=
  match nat_of_ascii c with
  | 9 | 10 | 11 | 12 | 13 | 32 | 160 => true
  | _ => false
  end.

Definition is_digit (c : ascii) : bool :=
  let n := nat_of_ascii c in (48 <=? n)%nat && (n <=? 57)%nat.

Definition is_hex_digit (c : ascii) : bool :=
  let n := nat_of_ascii c in
  is_digit c || ((65 <=? n)%nat && (n <=? 70)%nat)
             || ((97 <=? n)%nat && (n <=? 102)%nat).

Definition is_oct_digit (c : ascii) : bool :=
  let n := nat_of_ascii c in (48 <=? n)%nat && (n <=? 55)%nat.

Definition is_bin_digit (c : ascii) : bool :=
  let n := nat_of_ascii c in (48 <=? n)%nat && (n <=? 49)%nat.

Fixpoint drop_while (p : ascii -> bool) (l : list ascii) : list ascii :=
  match l with
  | c :: l' => if p c then drop_while p l' else l
  | [] => []
  end.

Definition trim_ws (l : list ascii) : list ascii :=
  rev (drop_while js_white_space (rev (drop_while js_white_space l))).

Definition nonempty_all (p : ascii -> bool) (l : list ascii) : bool :=
  match l with [] => false | _ => forallb p l end.

(** SignedInteger of an ExponentPart *)
Definition signed_integer (l : list ascii) : bool :=
  match l with
  | c :: l' =>
      if Ascii.eqb c "+" || Ascii.eqb c "-" then nonempty_all is_digit l'
      else nonempty_all is_digit l
  | [] => false
  end.

(** ExponentPart_opt, which must end the literal *)
Definition exponent_opt (l : list ascii) : bool :=
  match l with
  | [] => true
  | c :: l' => (Ascii.eqb c "e" || Ascii.eqb c "E") && signed_integer l'
  end.

Fixpoint list_ascii_eqb (a b : list ascii) : bool :=
  match a, b with
  | [], [] => true
  | x :: a', y :: b' => Ascii.eqb x y && list_ascii_eqb a' b'
  | _, _ => false
  end.

Definition str_unsigned_decimal (l : list ascii) : bool :=
  if list_ascii_eqb l (list_of_string "Infinity") then true else
  let r1 := drop_while is_digit l in
  let int_digits := negb (Nat.eqb (List.length r1) (List.length l)) in
  match r1 with
  | c :: r2 =>
      if Ascii.eqb c "." then
        let r3 := drop_while is_digit r2 in
        let frac_digits := negb (Nat.eqb (List.length r3) (List.length r2)) in
        (int_digits || frac_digits) && exponent_opt r3
      else int_digits && exponent_opt r1
  | [] => int_digits
  end.

Definition str_decimal (l : list ascii) : bool :=
  match l with
  | c :: l' =>
      if Ascii.eqb c "+" || Ascii.eqb c "-" then str_unsigned_decimal l'
      else str_unsigned_decimal l
  | [] => false
  end.

Definition non_decimal_integer (l : list ascii) : bool :=
  match l with
  | z :: x :: ds =>
      Ascii.eqb z "0" &&
      (if Ascii.eqb x "x" || Ascii.eqb x "X" then nonempty_all is_hex_digit ds
       else if Ascii.eqb x "o" || Ascii.eqb x "O" then nonempty_all is_oct_digit ds
       else if Ascii.eqb x "b" || Ascii.eqb x "B" then nonempty_all is_bin_digit ds
       else false)
  | _ => false
  end.

(** [isNaN(s)] for a string [s]. *)
Definition js_string_is_nan (s : string) : bool :=
  match trim_ws (list_of_string s) with
  | [] => false
  | t => negb (str_decimal t || non_decimal_integer t)
  end.

(* ------------------------------------------------------------------ *)
(** ** [$_pathMaker] *)

(** A path segment of an array path: a property name or an integer. *)
Inductive seg : Type :=
| SStr (s : string)
| SNum (n : Z).

(** The [path] argument: a text ([path.constructor === String]) or an array. *)
Inductive pin : Type :=
| PStr (s : string)
| PArr (l : list seg).

(** [p.length === 0]: a number has no [length] ([undefined !== 0]). *)
Definition seg_empty (p : seg) : bool :=
  match p with SStr s => Nat.eqb (String.length s) 0 | SNum _ => false end.

(** [isNaN(p)]: an integer is never NaN. *)
Definition seg_isNaN (p : seg) : bool :=
  match p with SStr s => js_string_is_nan s | SNum _ => false end.

(** [`${p}`] *)
Definition seg_text (p : seg) : string :=
  match p with SStr s => s | SNum n => Z_to_js_string n end.

(** The [for(const p of path)] loop, [nPath] being the accumulator. *)
Fixpoint pathMaker_loop (path : list seg) (nPath : string) : string :=
  match path with
  | [] => nPath
  | p :: rest =>
      if seg_empty p then nPath
      else if seg_isNaN p then pathMaker_loop rest (nPath ++ "['" ++ seg_text p ++ "']")
      else pathMaker_loop rest (nPath ++ "[" ++ seg_text p ++ "]")
  end.

Definition pathMaker_array (path : list seg) : string :=
  if (0 <? List.length path)%nat then
    let nPath := pathMaker_loop path "" in
    if Nat.eqb (String.length nPath) 0 then "." else nPath
  else ".".

(** [$_pathMaker(path)] *)
Definition pathMaker (path : pin) : string :=
  match path with
  | PStr s =>
      if startsWith "[" s && endsWith "]" s then s
      else pathMaker_array (map SStr (split "." s))
  | PArr l => pathMaker_array l
  end.


(* ------------------------------------------------------------------ *)
(** ** [JSON.stringify] and [JSON.parse]

    Both are ECMAScript built-ins, embedded for the values of [val]:
    numbers are integers, printed in plain digits, and strings are made of
    code units 0..255. A text outside that range ([1.5], [1e+21], a
    [\uXXXX] escape beyond code unit 255) is refused by [json_parse] where
    [JSON.parse] accepts it, and [JSON.stringify] prints a number of 1e21 or
    more with an exponent; the statements that decode or encode keep to
    values where the two agree ([js_safe] below). *)

(** The double-quote character, and [dquote s]: [s] with every backquote
    turned into a double quote, to write JSON texts. *)
Definition dq : ascii := ascii_of_nat 34.

Definition dquote (s : string) : string :=
  string_of_list (map (fun c => if Ascii.eqb c "`"%char then dq else c) (list_of_string s)).

Definition hex_digit (n : nat) : ascii :=
  if (n <? 10)%nat then ascii_of_nat (48 + n) else ascii_of_nat (87 + n).

(** QuoteJSONString, as a list of characters *)
Fixpoint quote_chars (l : list ascii) : list ascii :=
  match l with
  | [] => []
  | c :: l' =>
      let n := nat_of_ascii c in
      let esc :=
        match n with
        | 34 => ["\"%char; dq]
        | 92 => ["\"%char; "\"%char]
        | 8 => ["\"%char; "b"%char]
        | 12 => ["\"%char; "f"%char]
        | 10 => ["\"%char; "n"%char]
        | 13 => ["\"%char; "r"%char]
        | 9 => ["\"%char; "t"%char]
        | _ => if (n <? 32)%nat
               then ["\"%char; "u"%char; "0"%char; "0"%char; hex_digit (n / 16); hex_digit (n mod 16)]
               else [c]
        end in
      esc ++ quote_chars l'
  end.

Definition json_quote (s : string) : string :=
  string_of_list ((dq :: quote_chars (list_of_string s)) ++ [dq]).

Fixpoint join (sep : string) (l : list string) : string :=
  match l with
  | [] => ""
  | [x] => x
  | x :: l' => x ++ sep ++ join sep l'
  end.

(** SerializeJSONProperty: [None] is [undefined] (not serialized). *)
Fixpoint json_ser (v : val) : option string :=
  match v with
  | VUndef => None
  | VNull => Some "null"
  | VBool true => Some "true"
  | VBool false => Some "false"
  | VNum n => Some (Z_to_js_string n)
  | VStr s => Some (json_quote s)
  | VArr l =>
      Some ("[" ++ join ","
              ((fix go (l : list val) : list string :=
                  match l with
                  | [] => []
                  | x :: l' =>
                      match json_ser x with Some t => t | None => "null" end :: go l'
                  end) l) ++ "]")
  | VObj props =>
      Some ("{" ++ join ","
              ((fix go (ps : list (string * val)) : list string :=
                  match ps with
                  | [] => []
                  | (k, x) :: ps' =>
                      match json_ser x with
                      | Some t => (json_quote k ++ ":" ++ t) :: go ps'
                      | None => go ps'
                      end
                  end) props) ++ "}")
  | VErr _ => Some "{}"     (* an Error has no enumerable own property *)
  end.

(** [JSON.stringify(v)]: a string, or [undefined]. *)
Definition JSON_stringify (v : val) : val :=
  match json_ser v with Some t => VStr t | None => VUndef end.

Definition json_ws (c : ascii) : bool :=
  match nat_of_ascii c with 9 | 10 | 13 | 32 => true | _ => false end.

Definition hex_value (c : ascii) : option nat :=
  let n := nat_of_ascii c in
  if is_digit c then Some (n - 48)
  else if (65 <=? n)%nat && (n <=? 70)%nat then Some (n - 55)
  else if (97 <=? n)%nat && (n <=? 102)%nat then Some (n - 87)
  else None.

(** The characters of a JSON string literal after its opening quote. *)
Fixpoint p_string (l : list ascii) : option (list ascii * list ascii) :=
  match l with
  | [] => None
  | c :: r =>
      if Ascii.eqb c dq then Some ([], r)
      else if Ascii.eqb c "\" then
        match r with
        | e :: r' =>
            let simple (x : ascii) :=
              match p_string r' with Some (s, r'') => Some (x :: s, r'') | None => None end in
            match nat_of_ascii e with
            | 34 => simple dq
            | 92 => simple "\"%char
            | 47 => simple "/"%char
            | 98 => simple (ascii_of_nat 8)
            | 102 => simple (ascii_of_nat 12)
            | 110 => simple (ascii_of_nat 10)
            | 114 => simple (ascii_of_nat 13)
            | 116 => simple (ascii_of_nat 9)
            | 117 =>
                match r' with
                | h1 :: h2 :: h3 :: h4 :: r'' =>
                    match hex_value h1, hex_value h2, hex_value h3, hex_value h4 with
                    | Some a, Some b, Some c', Some d =>
                        let code := ((a * 16 + b) * 16 + c') * 16 + d in
                        if (code <? 256)%nat then
                          match p_string r'' with
                          | Some (s, r3) => Some (ascii_of_nat code :: s, r3)
                          | None => None
                          end
                        else None
                    | _, _, _, _ => None
                    end
                | _ => None
                end
            | _ => None
            end
        | [] => None
        end
      else if (nat_of_ascii c <? 32)%nat then None
      else match p_string r with Some (s, r') => Some (c :: s, r') | None => None end
  end.

Fixpoint digits_value (acc : Z) (l : list ascii) : Z :=
  match l with
  | [] => acc
  | c :: l' => digits_value (acc * 10 + Z.of_nat (nat_of_ascii c - 48)) l'
  end.

Fixpoint take_digits (l : list ascii) : list ascii * list ascii :=
  match l with
  | c :: l' =>
      if is_digit c then let (d, r) := take_digits l' in (c :: d, r) else ([], l)
  | [] => ([], [])
  end.

(** A JSON number: [-? (0 | [1-9][0-9]* )], fraction and exponent refused. *)
Definition p_number (l : list ascii) : option (val * list ascii) :=
  let '(neg, l1) :=
    match l with c :: r => if Ascii.eqb c "-" then (true, r) else (false, l) | [] => (false, l) end in
  match l1 with
  | z :: r => if Ascii.eqb z "0" then
               match r with
               | c :: _ => if Ascii.eqb c "." || Ascii.eqb c "e" || Ascii.eqb c "E" then None
                           else Some (VNum 0, r)
               | [] => Some (VNum 0, r)
               end
             else if is_digit z then
               let (ds, r') := take_digits l1 in
               let n := digits_value 0 ds in
               match r' with
               | c :: _ => if Ascii.eqb c "." || Ascii.eqb c "e" || Ascii.eqb c "E" then None
                           else Some (VNum (if neg then - n else n)%Z, r')
               | [] => Some (VNum (if neg then - n else n)%Z, r')
               end
             else None
  | [] => None
  end.

Definition skip_ws (l : list ascii) : list ascii := drop_while json_ws l.

(** The value grammar, by recursion on a fuel bounding the nesting of
    calls; [json_parse] gives it more fuel than characters of the text,
    every nested call having consumed at least one character. *)
Fixpoint p_value (fuel : nat) (l : list ascii) {struct fuel} : option (val * list ascii) :=
  match fuel with
  | O => None
  | S f =>
      match skip_ws l with
      | "n"%char :: "u"%char :: "l"%char :: "l"%char :: r => Some (VNull, r)
      | "t"%char :: "r"%char :: "u"%char :: "e"%char :: r => Some (VBool true, r)
      | "f"%char :: "a"%char :: "l"%char :: "s"%char :: "e"%char :: r => Some (VBool false, r)
      | "["%char :: r =>
          match skip_ws r with
          | "]"%char :: r' => Some (VArr [], r')
          | _ => p_elements f r []
          end
      | "{"%char :: r =>
          match skip_ws r with
          | "}"%char :: r' => Some (VObj [], r')
          | _ => p_members f r []
          end
      | c :: r =>
          if Ascii.eqb c dq then
            match p_string r with Some (s, r') => Some (VStr (string_of_list s), r') | None => None end
          else p_number (c :: r)
      | [] => p_number []
      end
  end
with p_elements (fuel : nat) (l : list ascii) (acc : list val) {struct fuel}
  : option (val * list ascii) :=
  match fuel with
  | O => None
  | S f =>
      match p_value f l with
      | Some (v, r) =>
          match skip_ws r with
          | ","%char :: r' => p_elements f r' (acc ++ [v])
          | "]"%char :: r' => Some (VArr (acc ++ [v]), r')
          | _ => None
          end
      | None => None
      end
  end
with p_members (fuel : nat) (l : list ascii) (acc : list (string * val)) {struct fuel}
  : option (val * list ascii) :=
  match fuel with
  | O => None
  | S f =>
      match skip_ws l with
      | c :: r =>
          if negb (Ascii.eqb c dq) then None else
          match p_string r with
          | Some (k, r1) =>
              match skip_ws r1 with
              | ":"%char :: r2 =>
                  match p_value f r2 with
                  | Some (v, r3) =>
                      let acc' := obj_set acc (string_of_list k) v in
                      match skip_ws r3 with
                      | ","%char :: r4 => p_members f r4 acc'
                      | "}"%char :: r4 => Some (VObj acc', r4)
                      | _ => None
                      end
                  | None => None
                  end
              | _ => None
              end
          | None => None
          end
      | [] => None
      end
  end.

(** [JSON.parse(text)]: [None] when it throws a SyntaxError. *)
Definition json_parse (text : string) : option val :=
  let l := list_of_string text in
  match p_value (4 * List.length l + 4) l with
  | Some (v, r) => match skip_ws r with [] => Some v | _ => None end
  | None => None
  end.

(** [String(v)], the coercion [JSON.parse] applies to its argument. *)
Definition to_js_string (v : val) : string :=
  match v with
  | VUndef => "undefined"
  | VNull => "null"
  | VBool true => "true"
  | VBool false => "false"
  | VNum n => Z_to_js_string n
  | VStr s => s
  | VArr _ => ""          (* not reached: objects are returned before *)
  | VObj _ => "[object Object]"
  | VErr m => "Error: " ++ m
  end.

(** [$_safetyJsonParse(target)] *)
Definition safetyJsonParse (target : val) : val :=
  if typeof_object target then target
  else match json_parse (to_js_string target) with
       | Some v => v
       | None => target
       end.


(** [s.includes(sub)] *)
Definition includes (sub s : string) : bool :=
  match String.index 0 sub s with Some _ => true | None => false end.

(** [err.message] *)
Definition err_message (e : val) : string :=
  match e with VErr m => m | _ => "" end.

(* ------------------------------------------------------------------ *)
(** ** The remote, the world and the monad of [async] code *)

(** How a remote call settles: ioredis resolves with the reply, or rejects
    with a ReplyError. *)
Inductive outcome : Type :=
| Resolved (reply : val)
| Rejected (error : val).

(** How an [async] function settles. *)
Inductive result (A : Type) : Type :=
| Ok (a : A)
| Throw (e : val).
Arguments Ok {A} a.
Arguments Throw {A} e.

(** [this.$internalCommands] (the names whose handle has been created),
    the remote store, and the remote calls issued so far, in order. *)
Record world (Store : Type) : Type := mkWorld {
  w_cache : list string;
  w_store : Store;
  w_log : list (string * list val)
}.
Arguments mkWorld {Store} w_cache w_store w_log.
Arguments w_cache {Store} w.
Arguments w_store {Store} w.
Arguments w_log {Store} w.

Definition M (Store A : Type) : Type := world Store -> result A * world Store.

Definition ret {Store A} (a : A) : M Store A := fun w => (Ok a, w).

Definition bind {Store A B} (m : M Store A) (k : A -> M Store B) : M Store B :=
  fun w => match m w with
           | (Ok a, w') => k a w'
           | (Throw e, w') => (Throw e, w')
           end.

Definition throw {Store A} (e : val) : M Store A := fun w => (Throw e, w).

Notation "x <- m ;; k" := (bind m (fun x => k))
  (at level 61, m at next level, right associativity).
Notation "' p <- m ;; k" := (bind m (fun x => match x with p => k end))
  (at level 61, p pattern, m at next level, right associativity).

(** Modelled from the spec: the module [./supportedCommands] required by the
    constructor is not among the sources; this is the operation set of the
    spec's section 6 (External interfaces), with the command names the
    methods of the class send. *)
Definition supportedCommands : list string :=
  ["JSON.DEL"; "JSON.GET"; "JSON.MGET"; "JSON.SET"; "JSON.TYPE";
   "JSON.NUMINCRBY"; "JSON.NUMMULTBY"; "JSON.STRAPPEND"; "JSON.STRLEN";
   "JSON.ARRAPPEND"; "JSON.ARRINDEX"; "JSON.ARRINSERT"; "JSON.ARRLEN";
   "JSON.ARRPOP"; "JSON.ARRTRIM"; "JSON.OBJKEYS"; "JSON.OBJLEN";
   "JSON.DEBUG"; "JSON.RESP"].

Section Client.

Context {Store : Type}.

(** The remote store: [cmd.string.call(this.$redis, args)]. *)
Variable remote : string -> list val -> Store -> outcome * Store.

(** [$_callCommand(command, args)] *)
Definition callCommand (command : string) (args : list val) : M Store val :=
  fun w =>
    if negb (existsb (String.eqb command) supportedCommands)
    then (Throw (VErr "Unsupported Command"), w)
    else
      let cache :=
        if existsb (String.eqb command) (w_cache w) then w_cache w
        else app (w_cache w) [command] in
      let '(o, st) := remote command args (w_store w) in
      let w' := mkWorld cache st (app (w_log w) [(command, args)]) in
      match o with
      | Rejected e => (Throw e, w')          (* the awaited promise rejects *)
      | Resolved r =>
          if is_error r then (Throw r, w')   (* if(r instanceof Error) throw r *)
          else (Ok (safetyJsonParse r), w')
      end.

(** [get(key, path)] *)
Definition get (key : string) (path : pin) : M Store val :=
  callCommand "JSON.GET" [VStr key; VStr (pathMaker path)].

(** [type(key, path)] *)
Definition type (key : string) (path : pin) : M Store val :=
  callCommand "JSON.TYPE" [VStr key; VStr (pathMaker path)].

(** [arrlen(key, path)] *)
Definition arrlen (key : string) (path : pin) : M Store val :=
  callCommand "JSON.ARRLEN" [VStr key; VStr (pathMaker path)].

(** [arrpop(key, path, index)]; [None] is an [undefined] index. *)
Definition arrpop (key : string) (path : pin) (index : option val) : M Store val :=
  let args := [VStr key; VStr (pathMaker path)] in
  let args := match index with Some i => app args [i] | None => args end in
  callCommand "JSON.ARRLEN" args.

(** [r[i]] *)
Definition js_index (r : val) (i : nat) : M Store val :=
  match r with
  | VArr l => ret (nth i l VUndef)
  | VNull | VUndef => throw (VErr "TypeError: Cannot read properties of null")
  | VStr s => ret (match String.get i s with Some c => VStr (String c "") | None => VUndef end)
  | VObj props =>
      ret (match find (fun kv => String.eqb (fst kv) (Z_to_js_string (Z.of_nat i))) props with
           | Some (_, v) => v
           | None => VUndef
           end)
  | _ => ret VUndef
  end.

(** [json[k] = v] on the object [json] that [mget] builds from [{}], as its
    own properties. [proto] tells whether the prototype chain of [json]
    still reaches the [__proto__] accessor of [Object.prototype]; while it
    does, assigning [__proto__] calls that setter, which creates no own
    property: [null] empties the chain, an object becomes the prototype (its
    own chain ends in [Object.prototype], so the accessor stays reachable
    unless that object has an own [__proto__] property, which shadows it),
    and a primitive is ignored. Otherwise the assignment creates or updates
    an own data property (the decoded values have only writable data
    properties, so an inherited one does not prevent it). The prototype
    itself is not part of the value. *)
Definition js_assign (proto : bool) (json : list (string * val)) (k : string) (v : val)
  : bool * list (string * val) :=
  if proto && String.eqb k "__proto__" then
    (match v with
     | VNull => false
     | VObj ps => negb (existsb (String.eqb "__proto__") (map fst ps))
     | _ => true
     end, json)
  else (proto, obj_set json k v).

(** [for(let i=0; i<keys.length; i++) json[keys[i]] = this.$_safetyJsonParse(r[i])],
    [ks] being the keys from index [i] on. *)
Fixpoint mget_loop (r : val) (i : nat) (ks : list string) (proto : bool)
    (json : list (string * val)) : M Store (list (string * val)) :=
  match ks with
  | [] => ret json
  | k :: ks' =>
      x <- js_index r i ;;
      let '(proto', json') := js_assign proto json k (safetyJsonParse x) in
      mget_loop r (S i) ks' proto' json'
  end.

(** [mget(keys, path)] for an array [keys]. *)
Definition mget (keys : list string) (path : pin) : M Store val :=
  r <- callCommand "JSON.MGET" (app (map VStr keys) [VStr (pathMaker path)]) ;;
  if is_error r then throw r
  else json <- mget_loop r 0 keys true [] ;; ret (VObj json).

(** The three remote messages [set] treats as a missing ancestor. *)
Definition missing_ancestor_message (message : string) : bool :=
  includes "non-terminal path level" message ||
  includes "must be created at the root" message ||
  includes "at level 0 in path" message.

(** [set(key, path, value, opts)], [recursive] being [opts.recursive === true]
    and [findAndCreate] the method [$_findAndCreateParentObject]. *)
Definition set_with (findAndCreate : string -> pin -> val -> M Store val)
    (key : string) (path : pin) (value : val) (recursive : bool) : M Store val :=
  r <- callCommand "JSON.SET" [VStr key; VStr (pathMaker path); JSON_stringify value] ;;
  if is_error r then
    let message := err_message r in
    if recursive && missing_ancestor_message message then
      rc <- findAndCreate key path value ;;
      if is_error rc then throw rc else ret rc
    else throw r
  else ret r.

(** The [while(paths.length)] loop of [$_findAndCreateParentObject].
    [rpaths] is the array [paths] read from its end: its head is the element
    [paths.pop()] removes, its tail reversed is [paths.slice(0, -1)].
    Returns [paths] and [setValue] when the loop exits. *)
Fixpoint findAndCreate_loop (key : string) (rpaths : list seg) (setValue : val)
  : M Store (list seg * val) :=
  match rpaths with
  | [] => ret ([], setValue)
  | last :: rinit =>
      let cPath := pathMaker (PArr (rev rinit)) in
      type_ <- type key (PStr cPath) ;;
      if negb (is_null type_) then ret (rev rpaths, setValue)
      else findAndCreate_loop key rinit (VObj [(seg_text last, setValue)])
  end.

(** [$_findAndCreateParentObject(key, path, value)].  Its closing call
    [this.set(key, cPath, setValue, {recursive: false})] never reaches the
    fallback of [set] ([recursive] is false), so the fallback passed to
    [set_with] there is immaterial ([set_with_nonrecursive] below). *)
Definition findAndCreateParentObject (key : string) (path : pin) (value : val)
  : M Store val :=
  let paths := match path with PStr s => map SStr (split "." s) | PArr l => l end in
  '(paths', setValue) <- findAndCreate_loop key (rev paths) value ;;
  let cPath := pathMaker (PArr paths') in
  set_with (fun _ _ _ => throw VUndef) key (PStr cPath) setValue false.

(** [set(key, path, value, opts)] *)
Definition set (key : string) (path : pin) (value : val) (recursive : bool) : M Store val :=
  set_with findAndCreateParentObject key path value recursive.

End Client.

(* ------------------------------------------------------------------ *)
(** ** The constructor and the one-command methods *)
(** [$_arrayMaker(value)] *)
Definition arrayMaker (value : val) : list val :=
  match value with VArr l => l | _ => [value] end.

(** The [RedisJSON] object the constructor builds: [$redis], [$opts],
    [$internalCommands] (the names of the cached command handles) and
    [$supportedCommands]. *)
Record client : Type := mkClient {
  c_redis : val;
  c_opts : val;
  c_internalCommands : list string;
  c_supportedCommands : list string
}.

(** ToBoolean, as [||] applies it (numbers are integers: no NaN). *)
Definition js_truthy (v : val) : bool :=
  match v with
  | VUndef | VNull => false
  | VBool b => b
  | VNum n => negb (Z.eqb n 0)
  | VStr s => negb (String.eqb s "")
  | VArr _ | VObj _ | VErr _ => true
  end.

(** [a || b] *)
Definition js_or (a b : val) : val := if js_truthy a then a else b.

(** [o.name] for the option names the constructor reads ([ports], [hosts],
    [db], [password]): only an own property of a plain object can hold one
    (no built-in prototype defines them), and reading a property of [null]
    or [undefined] throws a TypeError. *)
Definition get_option (o : val) (name : string) : result val :=
  match o with
  | VNull | VUndef => Throw (VErr ("Cannot read properties of null (reading '" ++ name ++ "')"))
  | VObj props =>
      Ok (match find (fun kv => String.eqb (fst kv) name) props with
          | Some (_, v) => v
          | None => VUndef
          end)
  | _ => Ok VUndef
  end.

Definition rbind {A B : Type} (m : result A) (k : A -> result B) : result B :=
  match m with Ok a => k a | Throw e => Throw e end.

(** [new RedisJSON(opts)]: [Throw] when the constructor throws.  An
    [undefined] argument takes the default [{}]. *)
Definition constructor (opts : val) : result client :=
  let opts := match opts with VUndef => VObj [] | _ => opts end in
  if typeof_object opts then
    rbind (get_option opts "ports") (fun ports =>
    rbind (get_option opts "hosts") (fun hosts =>
    rbind (get_option opts "db") (fun db =>
    rbind (get_option opts "password") (fun password =>
    Ok (mkClient VUndef
          (VObj [("port", js_or ports (VNum 6379));
                 ("host", js_or hosts (VStr "localhost"));
                 ("db", js_or db (VNum 0));
                 ("password", js_or password VNull)])
          [] supportedCommands)))))
  else Ok (mkClient VUndef opts [] supportedCommands).

Section Methods.
Context {Store : Type}.

(** The remote store, as in [Client]. *)
Variable remote : string -> list val -> Store -> outcome * Store.

(** [mget(keys, path)] when [keys] is one string: [$_arrayMaker] wraps it
    in a one-element array for the command, while the loop reads
    [keys.length] and [keys[i]] on the string itself, i.e. its characters. *)
Definition mget_str (keys : string) (path : pin) : M Store val :=
  r <- callCommand remote "JSON.MGET" (app (arrayMaker (VStr keys)) [VStr (pathMaker path)]) ;;
  if is_error r then throw r
  else json <- mget_loop r 0 (map (fun c => String c "") (list_of_string keys)) true [] ;;
       ret (VObj json).

(** [del(key, path)] *)
Definition del (key : string) (path : pin) : M Store val :=
  callCommand remote "JSON.DEL" [VStr key; VStr (pathMaker path)].

(** [forgot(key, path)] *)
Definition forgot (key : string) (path : pin) : M Store val := del key path.

(** [inc(key, path, value)] *)
Definition inc (key : string) (path : pin) (value : val) : M Store val :=
  callCommand remote "JSON.NUMINCRBY" [VStr key; VStr (pathMaker path); value].

(** [mul(key, path, value)] *)
Definition mul (key : string) (path : pin) (value : val) : M Store val :=
  callCommand remote "JSON.NUMMULTBY" [VStr key; VStr (pathMaker path); value].

(** [strand(key, path, value)] *)
Definition strand (key : string) (path : pin) (value : val) : M Store val :=
  callCommand remote "JSON.STRAPPEND" [VStr key; VStr (pathMaker path); JSON_stringify value].

(** [strlen(key, path)] *)
Definition strlen (key : string) (path : pin) : M Store val :=
  callCommand remote "JSON.STRLEN" [VStr key; VStr (pathMaker path)].

(** [arrand(key, path, values)] *)
Definition arrand (key : string) (path : pin) (values : val) : M Store val :=
  callCommand remote "JSON.ARRAPPEND"
    (VStr key :: VStr (pathMaker path) :: map JSON_stringify (arrayMaker values)).

(** [arridx(key, path, value)] *)
Definition arridx (key : string) (path : pin) (value : val) : M Store val :=
  callCommand remote "JSON.ARRINDEX" [VStr key; VStr (pathMaker path); JSON_stringify value].

(** [arrins(key, path, index, values)] *)
Definition arrins (key : string) (path : pin) (index : val) (values : val) : M Store val :=
  callCommand remote "JSON.ARRINSERT"
    (VStr key :: VStr (pathMaker path) :: index :: map JSON_stringify (arrayMaker values)).

(** [arrtrim(key, path, start, end)] *)
Definition arrtrim (key : string) (path : pin) (start end_ : val) : M Store val :=
  callCommand remote "JSON.ARRTRIM" [VStr key; VStr (pathMaker path); start; end_].

(** [objkeys(key, path)] *)
Definition objkeys (key : string) (path : pin) : M Store val :=
  callCommand remote "JSON.OBJKEYS" [VStr key; VStr (pathMaker path)].

(** [objlen(key, path)] *)
Definition objlen (key : string) (path : pin) : M Store val :=
  callCommand remote "JSON.OBJLEN" [VStr key; VStr (pathMaker path)].

(** [debug(args)] *)
Definition debug (args : list val) : M Store val :=
  callCommand remote "JSON.DEBUG" args.

(** [resp(key, path)] *)
Definition resp (key : string) (path : pin) : M Store val :=
  callCommand remote "JSON.RESP" [VStr key; VStr (pathMaker path)].

End Methods.

(* ------------------------------------------------------------------ *)
(** ** A model of the remote RedisJSON server

    The server is not part of the client: this model of the few commands
    the claims exercise ([JSON.TYPE], [JSON.SET], [JSON.GET], [JSON.ARRLEN],
    [JSON.MGET]) lets the client run on concrete documents.  A store maps
    each key to its document; paths are the bracket paths [$_pathMaker]
    builds ([.] is the root). *)
Module RedisServer.

Definition store : Type := list (string * val).

Definition lookup_key (st : list (string * val)) (k : string) : option val :=
  match find (fun kv => String.eqb (fst kv) k) st with
  | Some (_, v) => Some v
  | None => None
  end.

Fixpoint take_quoted (l : list ascii) : option (list ascii * list ascii) :=
  match l with
  | "'"%char :: "]"%char :: r => Some ([], r)
  | c :: r => match take_quoted r with Some (s, r') => Some (c :: s, r') | None => None end
  | [] => None
  end.

Fixpoint take_index (l : list ascii) : option (list ascii * list ascii) :=
  match l with
  | "]"%char :: r => Some ([], r)
  | c :: r => match take_index r with Some (s, r') => Some (c :: s, r') | None => None end
  | [] => None
  end.

Fixpoint parse_groups (fuel : nat) (l : list ascii) : option (list seg) :=
  match fuel with
  | O => None
  | S f =>
      match l with
      | [] => Some []
      | "["%char :: "'"%char :: r =>
          match take_quoted r with
          | Some (s, r') =>
              match parse_groups f r' with Some p => Some (SStr (string_of_list s) :: p) | None => None end
          | None => None
          end
      | "["%char :: r =>
          match take_index r with
          | Some (ds, r') =>
              if nonempty_all is_digit ds then
                match parse_groups f r' with Some p => Some (SNum (digits_value 0 ds) :: p) | None => None end
              else None
          | None => None
          end
      | _ => None
      end
  end.

Definition parse_path (p : string) : option (list seg) :=
  if String.eqb p "." then Some []
  else let l := list_of_string p in parse_groups (S (List.length l)) l.

Fixpoint doc_lookup (v : val) (p : list seg) : option val :=
  match p with
  | [] => Some v
  | SStr k :: p' =>
      match v with
      | VObj props => match lookup_key props k with Some x => doc_lookup x p' | None => None end
      | _ => None
      end
  | SNum n :: p' =>
      match v with
      | VArr l => match nth_error l (Z.to_nat n) with Some x => doc_lookup x p' | None => None end
      | _ => None
      end
  end.

(** Setting [nv] at [p] inside [v]; [None] when a level above the last
    one is missing. *)
Fixpoint doc_update (v : val) (p : list seg) (nv : val) : option val :=
  match p with
  | [] => Some nv
  | SStr k :: p' =>
      match v with
      | VObj props =>
          match p' with
          | [] => Some (VObj (obj_set props k nv))
          | _ =>
              match lookup_key props k with
              | Some x =>
                  match doc_update x p' nv with
                  | Some x' => Some (VObj (obj_set props k x'))
                  | None => None
                  end
              | None => None
              end
          end
      | _ => None
      end
  | SNum n :: p' =>
      match v with
      | VArr l =>
          match nth_error l (Z.to_nat n) with
          | Some x =>
              match doc_update x p' nv with
              | Some x' => Some (VArr (firstn (Z.to_nat n) l ++ x' :: skipn (S (Z.to_nat n)) l))
              | None => None
              end
          | None => None
          end
      | _ => None
      end
  end.

Definition type_name (v : val) : string :=
  match v with
  | VObj _ => "object" | VArr _ => "array" | VStr _ => "string"
  | VNum _ => "integer" | VBool _ => "boolean" | _ => "null"
  end.

Definition json_text (v : val) : val :=
  match json_ser v with Some t => VStr t | None => VNull end.

Definition wrong_arity : outcome := Rejected (VErr "ERR wrong number of arguments").

Definition remote (cmd : string) (args : list val) (st : store) : outcome * store :=
  if String.eqb cmd "JSON.MGET" then
    match rev args with
    | VStr p :: rkeys =>
        match parse_path p with
        | Some segs =>
            (Resolved (VArr (map (fun k =>
               match k with
               | VStr k =>
                   match lookup_key st k with
                   | Some d => match doc_lookup d segs with Some x => json_text x | None => VNull end
                   | None => VNull
                   end
               | _ => VNull
               end) (rev rkeys))), st)
        | None => (Rejected (VErr "ERR Search path error"), st)
        end
    | _ => (wrong_arity, st)
    end
  else
  match args with
  | VStr k :: VStr p :: rest =>
      match parse_path p with
      | None => (Rejected (VErr "ERR Search path error"), st)
      | Some segs =>
          let doc := lookup_key st k in
          if String.eqb cmd "JSON.TYPE" then
            match rest with
            | [] =>
                match doc with
                | Some d => match doc_lookup d segs with
                            | Some x => (Resolved (VStr (type_name x)), st)
                            | None => (Resolved VNull, st)
                            end
                | None => (Resolved VNull, st)
                end
            | _ => (wrong_arity, st)
            end
          else if String.eqb cmd "JSON.GET" then
            match rest with
            | [] =>
                match doc with
                | Some d => match doc_lookup d segs with
                            | Some x => (Resolved (json_text x), st)
                            | None => (Rejected (VErr "ERR path does not exist"), st)
                            end
                | None => (Resolved VNull, st)
                end
            | _ => (wrong_arity, st)
            end
          else if String.eqb cmd "JSON.ARRLEN" then
            match rest with
            | [] =>
                match doc with
                | Some d => match doc_lookup d segs with
                            | Some (VArr l) => (Resolved (VNum (Z.of_nat (List.length l))), st)
                            | Some _ => (Rejected (VErr "ERR wrong type of path value"), st)
                            | None => (Resolved VNull, st)
                            end
                | None => (Resolved VNull, st)
                end
            | _ => (wrong_arity, st)
            end
          else if String.eqb cmd "JSON.SET" then
            match rest with
            | [VStr j] =>
                match json_parse j with
                | None => (Rejected (VErr "ERR invalid JSON"), st)
                | Some v =>
                    match segs, doc with
                    | [], _ => (Resolved (VStr "OK"), obj_set st k v)
                    | _, None => (Rejected (VErr "ERR new objects must be created at the root"), st)
                    | _, Some d =>
                        match doc_update d segs v with
                        | Some d' => (Resolved (VStr "OK"), obj_set st k d')
                        | None => (Rejected (VErr "ERR missing key at non-terminal path level"), st)
                        end
                    end
                end
            | _ => (wrong_arity, st)
            end
          else (Rejected (VErr "ERR unknown command"), st)
      end
  | _ => (wrong_arity, st)
  end.

End RedisServer.

Definition world0 (st : RedisServer.store) : world RedisServer.store := mkWorld [] st [].


(* ------------------------------------------------------------------ *)
(** ** Notions the statements below use *)

(** The bracket group emitted for one segment. *)
Definition segment_group (p : seg) : string :=
  if seg_isNaN p then "['" ++ seg_text p ++ "']" else "[" ++ seg_text p ++ "]".

(** The segments before the first empty one. *)
Fixpoint take_nonempty (l : list seg) : list seg :=
  match l with
  | [] => []
  | p :: l' => if seg_empty p then [] else p :: take_nonempty l'
  end.

Definition concat_groups (l : list seg) : string :=
  fold_right (fun p acc => segment_group p ++ acc) "" l.

(** One group per segment before the first empty one; [.] when none. *)
Definition normalize_groups (l : list seg) : string :=
  match take_nonempty l with
  | [] => "."
  | ps => concat_groups ps
  end.

(** The segments the normalizer reads from its argument. *)
Definition segments_of (p : pin) : list seg :=
  match p with PStr s => map SStr (split "." s) | PArr l => l end.

(** The text the normalizer returns as it is. *)
Definition passthrough (p : pin) : bool :=
  match p with PStr s => startsWith "[" s && endsWith "]" s | PArr _ => false end.

(** A text made of one or more bracket groups [[...]] and nothing else. *)
Fixpoint bracket_groups_from (fuel : nat) (l : list ascii) : bool :=
  match fuel with
  | O => false
  | S f =>
      match l with
      | "["%char :: r =>
          match RedisServer.take_index r with
          | Some (_, []) => true
          | Some (_, r') => bracket_groups_from f r'
          | None => false
          end
      | _ => false
      end
  end.

Definition is_bracket_groups (s : string) : bool :=
  let l := list_of_string s in bracket_groups_from (List.length l) l.

(** [value] wrapped in one single-key object per segment, outermost first. *)
Definition nest (segs : list seg) (value : val) : val :=
  fold_right (fun p acc => VObj [(seg_text p, acc)]) value segs.

(** The argument lists of the [JSON.SET] calls of a log. *)
Definition set_calls (log : list (string * list val)) : list (list val) :=
  map snd (filter (fun c => String.eqb (fst c) "JSON.SET") log).

(** A store whose key ["K"] holds [{a:{}}]. *)
Definition store_a : RedisServer.store := [("K", VObj [("a", VObj [])])].

(** The command-handle cache holds supported command names, each once. *)
Definition cache_ok {St : Type} (w : world St) : Prop :=
  NoDup (w_cache w) /\ incl (w_cache w) supportedCommands.

(** A computation that keeps [cache_ok] whatever the world it starts from. *)
Definition keeps_cache {St A : Type} (m : M St A) : Prop :=
  forall w, cache_ok w -> cache_ok (snd (m w)).

Fixpoint keys_distinct (ps : list (string * val)) : bool :=
  match ps with
  | [] => true
  | (k, _) :: ps' => negb (existsb (String.eqb k) (map fst ps')) && keys_distinct ps'
  end.

Fixpoint json_plain (v : val) : bool :=
  match v with
  | VUndef | VErr _ => false
  | VNull | VBool _ | VNum _ | VStr _ => true
  | VArr l => forallb json_plain l
  | VObj ps => keys_distinct ps && forallb (fun kv => json_plain (snd kv)) ps
  end.

(** A property key that is an array index: the canonical decimal text of an
    integer from 0 to 2^32 - 2. *)
Definition is_array_index (k : string) : bool :=
  match list_of_string k with
  | [] => false
  | c :: l =>
      forallb is_digit (c :: l) &&
      (negb (Ascii.eqb c "0") || match l with [] => true | _ => false end) &&
      (digits_value 0 (c :: l) <=? 4294967294)%Z
  end.




Definition max_safe_integer : Z := 9007199254740991.

(** The values on which the embedded [JSON.stringify] and [JSON.parse] are
    those of ECMAScript: every number is a safe integer (an exact double,
    below 1e21, printed in plain digits) and no object key is an array
    index (which [JSON.stringify] would list first). *)
Fixpoint js_safe (v : val) : bool :=
  match v with
  | VNum n => (Z.abs n <=? max_safe_integer)%Z
  | VArr l => forallb js_safe l
  | VObj ps => forallb (fun kv => negb (is_array_index (fst kv)) && js_safe (snd kv)) ps
  | _ => true
  end.

Fixpoint ser_elements (l : list val) : list string :=
  match l with
  | [] => []
  | x :: l' => match json_ser x with Some t => t | None => "null" end :: ser_elements l'
  end.

Fixpoint ser_members (ps : list (string * val)) : list string :=
  match ps with
  | [] => []
  | (k, x) :: ps' =>
      match json_ser x with
      | Some t => (json_quote k ++ ":" ++ t) :: ser_members ps'
      | None => ser_members ps'
      end
  end.

Definition stop (r : list ascii) : Prop :=
  r = [] \/ exists r', r = ","%char :: r' \/ r = "]"%char :: r' \/ r = "}"%char :: r'.

Definition start_ok (l : list ascii) : Prop :=
  exists c l', l = c :: l' /\ (json_ws c || Ascii.eqb c "]" || Ascii.eqb c "}") = false.

Section val_rect'.
Variable P : val -> Prop.
Hypothesis HU : P VUndef.
Hypothesis HN : P VNull.
Hypothesis HB : forall b, P (VBool b).
Hypothesis HZ : forall n, P (VNum n).
Hypothesis HS : forall s, P (VStr s).
Hypothesis HA : forall l, Forall P l -> P (VArr l).
Hypothesis HO : forall ps, Forall (fun kv => P (snd kv)) ps -> P (VObj ps).
Hypothesis HE : forall m, P (VErr m).
Fixpoint val_ind' (v : val) : P v :=
  match v with
  | VUndef => HU | VNull => HN | VBool b => HB b | VNum n => HZ n | VStr s => HS s
  | VArr l => HA l ((fix go (l : list val) : Forall P l :=
                       match l with [] => Forall_nil _ | x :: l' => Forall_cons _ (val_ind' x) (go l') end) l)
  | VObj ps => HO ps ((fix go (ps : list (string * val)) : Forall (fun kv => P (snd kv)) ps :=
                       match ps with [] => Forall_nil _ | kv :: ps' => Forall_cons _ (val_ind' (snd kv)) (go ps') end) ps)
  | VErr m => HE m
  end.
End val_rect'.

(** [v] is serialized to a text the parser reads back as [v], whatever
    follows it up to a separator, given fuel at least its length. *)
Definition ser_ok (v : val) : Prop :=
  json_plain v = true ->
  exists t, json_ser v = Some t /\ start_ok (list_of_string t) /\
  forall f r, (List.length (list_of_string t) <= f)%nat -> stop r ->
    p_value f (app (list_of_string t) r) = Some (v, r).

(* ------------------------------------------------------------------ *)
(** * Properties *)

(** ** Sanity checks of the embedding *)

Example pm1 : pathMaker (PArr [SStr "a"; SStr "b"; SNum 0]) = "['a']['b'][0]".
Proof. reflexivity. Qed.

Example pm3 : pathMaker (PStr ".") = ".".
Proof. reflexivity. Qed.

Example js1 : json_parse (dquote "{`a`: [1, -20, true, null, `x\`y`], `b`:{}}")
  = Some (VObj [("a", VArr [VNum 1; VNum (-20); VBool true; VNull; VStr (dquote "x`y")]); ("b", VObj [])]).
Proof. reflexivity. Qed.

Example js3 : map safetyJsonParse [VStr "OK"; VStr "object"; VNull; VStr "42"; VUndef]
  = [VStr "OK"; VStr "object"; VNull; VNum 42; VUndef].
Proof. reflexivity. Qed.
Example pm2 : pathMaker (PStr "a.b.0") = "['a']['b'][0]".
Proof. reflexivity. Qed.
Example pm4 : map js_string_is_nan ["-1"; " 7 "; "1.5e3"; "0x1f"; "Infinity"; "a"; "1a"; "."; "-"; "0x"] = [false;false;false;false;false;true;true;true;true;true].
Proof. reflexivity. Qed.
Example js2 : JSON_stringify (VObj [("c", VNum 42); ("d", VUndef); ("e", VStr (dquote "q`\"))])
  = VStr (dquote "{`c`:42,`e`:`q\`\\`}").
Proof. reflexivity. Qed.
Example js4 : json_parse (dquote "{`a`:1,`a`:2,`b`:3}") = Some (VObj [("a", VNum 2); ("b", VNum 3)]).
Proof. reflexivity. Qed.

(** ** The path normalizer [$_pathMaker] *)

Lemma sappend_assoc (a b c : string) : (a ++ b) ++ c = a ++ (b ++ c).
Proof. induction a as [|x a IH]; simpl; [reflexivity | now rewrite IH]. Qed.

Lemma sappend_nil_r (a : string) : a ++ "" = a.
Proof. induction a as [|x a IH]; simpl; [reflexivity | now rewrite IH]. Qed.

Lemma slength_app (a b : string) :
  String.length (a ++ b) = (String.length a + String.length b)%nat.
Proof. induction a as [|x a IH]; simpl; [reflexivity | now rewrite IH]. Qed.

Lemma pathMaker_loop_groups (l : list seg) (acc : string) :
  pathMaker_loop l acc = acc ++ concat_groups (take_nonempty l).
Proof.
  revert acc; induction l as [|p l IH]; intro acc; simpl.
  - symmetry; apply sappend_nil_r.
  - destruct (seg_empty p); simpl.
    + symmetry; apply sappend_nil_r.
    + unfold segment_group; destruct (seg_isNaN p);
        rewrite IH, sappend_assoc; reflexivity.
Qed.

Lemma pathMaker_array_groups (l : list seg) : pathMaker_array l = normalize_groups l.
Proof.
  unfold pathMaker_array, normalize_groups.
  destruct l as [|p l]; [reflexivity|].
  cbn [List.length Nat.ltb Nat.leb].
  rewrite pathMaker_loop_groups.
  destruct (take_nonempty (p :: l)) as [|q qs]; [reflexivity|].
  cbn [String.append concat_groups fold_right].
  unfold segment_group; destruct (seg_isNaN q); reflexivity.
Qed.

Lemma pathMaker_text (s : string) :
  pathMaker (PStr s) =
  if startsWith "[" s && endsWith "]" s then s
  else normalize_groups (map SStr (split "." s)).
Proof.
  simpl; destruct (startsWith "[" s && endsWith "]" s);
    [reflexivity | apply pathMaker_array_groups].
Qed.

Lemma pathMaker_not_passthrough (p : pin) :
  passthrough p = false -> pathMaker p = normalize_groups (segments_of p).
Proof.
  destruct p as [s|l]; simpl; intro H.
  - rewrite H; apply pathMaker_array_groups.
  - apply pathMaker_array_groups.
Qed.

Lemma take_nonempty_before_empty (pre post : list seg) :
  forallb (fun q => negb (seg_empty q)) pre = true ->
  take_nonempty (app pre (SStr "" :: post)) = pre.
Proof.
  induction pre as [|q pre IH]; simpl; [reflexivity|].
  intro H; apply andb_prop in H as [Hq Hpre].
  destruct (seg_empty q); [discriminate|].
  now rewrite IH.
Qed.

Lemma take_nonempty_all (pre : list seg) :
  forallb (fun q => negb (seg_empty q)) pre = true -> take_nonempty pre = pre.
Proof.
  induction pre as [|q pre IH]; simpl; [reflexivity|].
  intro H; apply andb_prop in H as [Hq Hpre].
  destruct (seg_empty q); [discriminate|].
  now rewrite IH.
Qed.

Lemma substring_last (a : string) (c : ascii) :
  String.substring (String.length a) 1 (a ++ String c "") = String c "".
Proof. induction a as [|x a IH]; simpl; [reflexivity | exact IH]. Qed.

Lemma endsWith_snoc (a : string) : endsWith "]" (a ++ "]") = true.
Proof.
  unfold endsWith; rewrite slength_app; cbn [String.length].
  replace (String.length a + 1)%nat with (S (String.length a)) by lia.
  replace (S (String.length a) - 1)%nat with (String.length a) by lia.
  rewrite substring_last; reflexivity.
Qed.

Lemma segment_group_snoc (p : seg) : exists a, segment_group p = a ++ "]".
Proof.
  unfold segment_group; destruct (seg_isNaN p).
  - exists ("['" ++ seg_text p ++ "'"); rewrite !sappend_assoc; reflexivity.
  - exists ("[" ++ seg_text p); rewrite !sappend_assoc; reflexivity.
Qed.

Lemma concat_groups_snoc (q : seg) (qs : list seg) :
  exists a, concat_groups (q :: qs) = a ++ "]".
Proof.
  revert q; induction qs as [|q' qs IH]; intro q.
  - destruct (segment_group_snoc q) as [a Ha].
    exists a; simpl; now rewrite sappend_nil_r.
  - destruct (IH q') as [a Ha]; exists (segment_group q ++ a).
    change (concat_groups (q :: q' :: qs)) with (segment_group q ++ concat_groups (q' :: qs)).
    now rewrite Ha, sappend_assoc.
Qed.

Lemma prefix_empty (s : string) : String.prefix "" s = true.
Proof. destruct s; reflexivity. Qed.

Lemma concat_groups_start (q : seg) (qs : list seg) :
  startsWith "[" (concat_groups (q :: qs)) = true.
Proof.
  simpl; unfold segment_group; destruct (seg_isNaN q); cbn; first [reflexivity | apply prefix_empty].
Qed.

Lemma string_of_list_of_string (s : string) : string_of_list (list_of_string s) = s.
Proof. induction s as [|c s IH]; simpl; [reflexivity | now rewrite IH]. Qed.

Lemma string_of_list_app (a b : list ascii) :
  string_of_list (app a b) = string_of_list a ++ string_of_list b.
Proof. induction a as [|c a IH]; simpl; [reflexivity | now rewrite IH]. Qed.

Lemma take_index_spec (r c r' : list ascii) :
  RedisServer.take_index r = Some (c, r') -> r = app c ("]"%char :: r').
Proof.
  revert c r'; induction r as [|x r IH]; intros c r' H; simpl in H; [discriminate|].
  destruct (Ascii.eqb x "]") eqn:Ex.
  - apply Ascii.eqb_eq in Ex; subst x.
    injection H as <- <-; reflexivity.
  - assert (Hx : x <> "]"%char) by (intro E; subst; discriminate).
    destruct x as [[] [] [] [] [] [] [] []];
      try (destruct (RedisServer.take_index r) as [[c0 r0]|] eqn:E; [|discriminate];
           injection H as <- <-; simpl; f_equal; now apply IH);
      exfalso; apply Hx; reflexivity.
Qed.

Lemma bracket_groups_shape (fuel : nat) (l : list ascii) :
  bracket_groups_from fuel l = true -> exists m, l = "["%char :: app m ["]"%char].
Proof.
  revert l; induction fuel as [|f IH]; intros l H; simpl in H; [discriminate|].
  destruct l as [|x r]; [discriminate|].
  destruct x as [[] [] [] [] [] [] [] []]; try discriminate.
  destruct (RedisServer.take_index r) as [[c r']|] eqn:E; [|discriminate].
  apply take_index_spec in E; subst r.
  destruct r' as [|y r''].
  - exists c; reflexivity.
  - destruct (IH _ H) as [m Hm].
    exists (app c ("]"%char :: "["%char :: m)); rewrite Hm.
    rewrite <- app_assoc; reflexivity.
Qed.

Lemma normalize_groups_shape (l : list seg) :
  normalize_groups l = "." \/
  (startsWith "[" (normalize_groups l) = true /\ endsWith "]" (normalize_groups l) = true).
Proof.
  unfold normalize_groups; destruct (take_nonempty l) as [|q qs]; [now left|].
  right; split; [apply concat_groups_start|].
  destruct (concat_groups_snoc q qs) as [a Ha]; rewrite Ha; apply endsWith_snoc.
Qed.

Lemma bracket_groups_wrapped (s : string) :
  is_bracket_groups s = true -> startsWith "[" s && endsWith "]" s = true.
Proof.
  unfold is_bracket_groups; intro H.
  destruct (bracket_groups_shape _ _ H) as [m Hm].
  rewrite <- (string_of_list_of_string s), Hm.
  cbn [string_of_list]; rewrite string_of_list_app; cbn [string_of_list].
  apply andb_true_intro; split.
  - cbn; apply prefix_empty.
  - change (String "[" (string_of_list m ++ "]")) with (("[" ++ string_of_list m) ++ "]").
    apply endsWith_snoc.
Qed.

(** C5 (counterexample). A segment that is not a non-negative integer
    (["-1"]) is emitted unquoted, and a non-empty segment after an empty one
    (["b"] in [a, empty, b]) gets no bracket group. *)
Lemma pathMaker_C5_counterexample :
  pathMaker (PArr [SStr "-1"]) = "[-1]" /\ pathMaker (PArr [SStr "-1"]) <> "['-1']" /\
  pathMaker (PArr [SStr "a"; SStr ""; SStr "b"]) <> "['a']['b']".
Proof. split; [reflexivity | split; discriminate]. Qed.

(** C5 (amended). For a segment list, and for a text that does not start
    with [[] and end with []] (split on [.]), the normalizer emits one
    bracket group per segment before the first empty one, [[p]] unquoted when
    [isNaN(p)] is false (integers, and texts such as ["-1"], ["1.5"], [" 7"],
    ["0x1f"], ["Infinity"]) and [['p']] otherwise, and [.] when it emits
    no group; [["a","b",0]] gives [['a']['b'][0]], the empty list [.]. *)
Theorem pathMaker_normal_form :
  (forall l, pathMaker (PArr l) = normalize_groups l) /\
  (forall s, pathMaker (PStr s) =
             if startsWith "[" s && endsWith "]" s then s
             else normalize_groups (map SStr (split "." s))) /\
  pathMaker (PArr [SStr "a"; SStr "b"; SNum 0]) = "['a']['b'][0]" /\
  pathMaker (PArr []) = "." /\
  map (fun t => pathMaker (PArr [SStr t])) ["-1"; "1.5"; " 7"; "0x1f"; "Infinity"; "x1"]
    = ["[-1]"; "[1.5]"; "[ 7]"; "[0x1f]"; "[Infinity]"; "['x1']"].
Proof.
  split; [exact pathMaker_array_groups|].
  split; [exact pathMaker_text|].
  split; [reflexivity|]. split; reflexivity.
Qed.

(** C6 (counterexample). The text ["[a]..[b]"] has its first empty segment
    at position 1, but it starts with [[] and ends with []], so the
    normalizer returns it as it is, [[b]] after the empty segment included,
    not what it returns for the first segment alone. *)
Lemma pathMaker_C6_counterexample :
  segments_of (PStr "[a]..[b]") = app [SStr "[a]"] (SStr "" :: [SStr "[b]"]) /\
  pathMaker (PStr "[a]..[b]") = "[a]..[b]" /\
  pathMaker (PStr "[a]..[b]") <> pathMaker (PArr [SStr "[a]"]).
Proof. split; [reflexivity|]. split; [reflexivity | discriminate]. Qed.

(** C6 (amended). For a path given as a segment list, or as a text that
    does not both start with [[] and end with []], whose first empty segment
    is at position [k] (the segments before it being [pre]), the normalizer
    returns what it returns for [pre], the root [.] when [k = 0]. *)
Theorem pathMaker_truncates_at_empty (p : pin) (pre post : list seg)
  (Hp : passthrough p = false)
  (Hseg : segments_of p = app pre (SStr "" :: post))
  (Hpre : forallb (fun q => negb (seg_empty q)) pre = true) :
  pathMaker p = pathMaker (PArr pre) /\ (pre = [] -> pathMaker p = ".").
Proof.
  rewrite (pathMaker_not_passthrough p Hp), Hseg.
  assert (E : normalize_groups (app pre (SStr "" :: post)) = pathMaker (PArr pre)).
  { unfold normalize_groups at 1; rewrite take_nonempty_before_empty by exact Hpre.
    simpl; rewrite pathMaker_array_groups; unfold normalize_groups.
    now rewrite take_nonempty_all by exact Hpre. }
  split; [exact E|]. intros ->; rewrite E; reflexivity.
Qed.

Lemma pathMaker_truncates_at_empty_witness :
  passthrough (PStr "a..b") = false /\
  segments_of (PStr "a..b") = app [SStr "a"] (SStr "" :: [SStr "b"]) /\
  forallb (fun q => negb (seg_empty q)) [SStr "a"] = true /\
  pathMaker (PStr "a..b") = pathMaker (PArr [SStr "a"]).
Proof.
  split; [reflexivity|]. split; [reflexivity|]. split; [reflexivity|].
  apply (pathMaker_truncates_at_empty (PStr "a..b") [SStr "a"] [SStr "b"]);
    reflexivity.
Defined.

(** C7. The normalizer is idempotent: normalizing its own output returns it
    unchanged. *)
Theorem pathMaker_idempotent (p : pin) : pathMaker (PStr (pathMaker p)) = pathMaker p.
Proof.
  destruct (passthrough p) eqn:Hp.
  - destruct p as [s|l]; simpl in Hp; [|discriminate].
    simpl; rewrite Hp, Hp; reflexivity.
  - rewrite (pathMaker_not_passthrough p Hp).
    destruct (normalize_groups_shape (segments_of p)) as [E | [E1 E2]].
    + rewrite E; reflexivity.
    + rewrite pathMaker_text, E1, E2; reflexivity.
Qed.

(** C8 (counterexample). ["[a].c.[b]"] is not made of bracket groups, yet
    the normalizer returns it as it is instead of splitting it on [.]. *)
Lemma pathMaker_C8_counterexample :
  is_bracket_groups "[a].c.[b]" = false /\
  pathMaker (PStr "[a].c.[b]") = "[a].c.[b]" /\
  pathMaker (PStr "[a].c.[b]") <> normalize_groups (map SStr (split "." "[a].c.[b]")).
Proof. split; [reflexivity|]. split; [reflexivity | discriminate]. Qed.

(** C8 (amended). A text is returned as it is exactly when it starts with
    [[] and ends with []]: every text made of bracket groups does, and so do
    texts such as ["[a].c.[b]"]; any other text is split on [.] and rebuilt. *)
Theorem pathMaker_text_passthrough (s : string) :
  (startsWith "[" s && endsWith "]" s = true -> pathMaker (PStr s) = s) /\
  (startsWith "[" s && endsWith "]" s = false ->
     pathMaker (PStr s) = normalize_groups (map SStr (split "." s))) /\
  (is_bracket_groups s = true -> pathMaker (PStr s) = s).
Proof.
  rewrite pathMaker_text.
  split; [intros ->; reflexivity|].
  split; [intros ->; reflexivity|].
  intro H; rewrite (bracket_groups_wrapped s H); reflexivity.
Qed.

(** ** The dispatcher and the auto-create write *)

Lemma p_elements_arr (fuel : nat) (l : list ascii) (acc : list val) (v : val) (r : list ascii) :
  p_elements fuel l acc = Some (v, r) -> exists vs, v = VArr vs.
Proof.
  revert l acc; induction fuel as [|f IH]; intros l acc H; simpl in H; [discriminate|].
  destruct (p_value f l) as [[x r1]|]; [|discriminate].
  destruct (skip_ws r1) as [|c r2]; [discriminate|].
  destruct (Ascii.eqb c ",") eqn:E1.
  - apply Ascii.eqb_eq in E1; subst c; exact (IH _ _ H).
  - destruct (Ascii.eqb c "]") eqn:E2.
    + apply Ascii.eqb_eq in E2; subst c; injection H as <- _; eauto.
    + destruct c as [[] [] [] [] [] [] [] []]; discriminate.
Qed.

Lemma p_members_obj (fuel : nat) (l : list ascii) (acc : list (string * val)) (v : val) (r : list ascii) :
  p_members fuel l acc = Some (v, r) -> exists ps, v = VObj ps.
Proof.
  revert l acc; induction fuel as [|f IH]; intros l acc H; simpl in H; [discriminate|].
  destruct (skip_ws l) as [|c0 l0]; [discriminate|].
  destruct c0 as [[] [] [] [] [] [] [] []]; try discriminate.
  destruct (p_string l0) as [[k r1]|]; [|discriminate].
  destruct (skip_ws r1) as [|c1 r2]; [discriminate|].
  destruct c1 as [[] [] [] [] [] [] [] []]; try discriminate.
  destruct (p_value f r2) as [[x r3]|]; [|discriminate].
  destruct (skip_ws r3) as [|c2 r4]; [discriminate|].
  destruct c2 as [[] [] [] [] [] [] [] []]; try discriminate;
    first [exact (IH _ _ H) | injection H as <- _; eauto].
Qed.

Lemma p_number_num (l : list ascii) (v : val) (r : list ascii) :
  p_number l = Some (v, r) -> exists n, v = VNum n.
Proof.
  unfold p_number; intro H.
  destruct (match l with c :: r0 => if Ascii.eqb c "-" then (true, r0) else (false, l)
            | [] => (false, l) end) as [neg l1].
  destruct l1 as [|z r1]; [discriminate|].
  destruct (Ascii.eqb z "0").
  - destruct r1 as [|c r2]; [injection H as <- _; eauto|].
    destruct (Ascii.eqb c "." || Ascii.eqb c "e" || Ascii.eqb c "E");
      [discriminate | injection H as <- _; eauto].
  - destruct (is_digit z); [|discriminate].
    destruct (take_digits (z :: r1)) as [ds r'].
    destruct r' as [|c r2]; [injection H as <- _; eauto|].
    destruct (Ascii.eqb c "." || Ascii.eqb c "e" || Ascii.eqb c "E");
      [discriminate | injection H as <- _; eauto].
Qed.

(** [JSON.parse] never produces an [Error] instance. *)
Lemma json_parse_not_error (t : string) (v : val) :
  json_parse t = Some v -> is_error v = false.
Proof.
  unfold json_parse.
  destruct (p_value (4 * List.length (list_of_string t) + 4) (list_of_string t))
    as [[x r]|] eqn:E; [|discriminate].
  destruct (skip_ws r); [|discriminate]. intro H; injection H as <-.
  revert E; generalize (4 * List.length (list_of_string t) + 4)%nat as fuel.
  generalize (list_of_string t) as l. intros l fuel E.
  destruct fuel as [|f]; simpl in E; [discriminate|].
  destruct (skip_ws l) as [|c l'] eqn:Ews; [apply p_number_num in E as [n ->]; reflexivity|].
  repeat match type of E with
  | context [match ?c with Ascii _ _ _ _ _ _ _ _ => _ end] => destruct c as [[] [] [] [] [] [] [] []]
  | context [match ?l with [] => _ | _ :: _ => _ end] => destruct l
  end;
  first
    [ injection E as <- _; reflexivity
    | apply p_number_num in E as [n ->]; reflexivity
    | apply p_elements_arr in E as [vs ->]; reflexivity
    | apply p_members_obj in E as [ps ->]; reflexivity
    | destruct (p_string _) as [[s r']|]; [injection E as <- _; reflexivity | discriminate] ].
Qed.

Lemma safetyJsonParse_not_error (r : val) :
  is_error r = false -> is_error (safetyJsonParse r) = false.
Proof.
  unfold safetyJsonParse; intro H.
  destruct (typeof_object r); [exact H|].
  destruct (json_parse (to_js_string r)) eqn:E; [exact (json_parse_not_error _ _ E) | exact H].
Qed.

Section Dispatch.

Context {St : Type}.
Variable remote : string -> list val -> St -> outcome * St.

(** A supported command issues exactly one remote call, logged in order. *)
Lemma callCommand_log (cmd : string) (args : list val) (w : world St) :
  existsb (String.eqb cmd) supportedCommands = true ->
  w_log (snd (callCommand remote cmd args w)) = app (w_log w) [(cmd, args)] /\
  w_store (snd (callCommand remote cmd args w)) = snd (remote cmd args (w_store w)).
Proof.
  intro Hs; unfold callCommand; rewrite Hs; simpl.
  destruct (remote cmd args (w_store w)) as [[r|e] st]; simpl; auto.
  destruct (is_error r); simpl; auto.
Qed.

(** A successful call returns the decoded reply, never an [Error]. *)
Lemma callCommand_ok_not_error (cmd : string) (args : list val) (w : world St) (r : val) :
  fst (callCommand remote cmd args w) = Ok r -> is_error r = false.
Proof.
  unfold callCommand.
  destruct (negb (existsb (String.eqb cmd) supportedCommands)); simpl; [discriminate|].
  destruct (remote cmd args (w_store w)) as [[r'|e] st]; simpl; [|discriminate].
  destruct (is_error r') eqn:E; simpl; [discriminate|].
  intro H; injection H as <-; now apply safetyJsonParse_not_error.
Qed.

(** The fallback of [set] is unreachable: whatever the remote does, the
    [recursive] flag and the fallback passed to [set_with] change nothing. *)
Lemma set_with_fallback_unreachable (f g : string -> pin -> val -> M St val)
    (key : string) (path : pin) (value : val) (b c : bool) (w : world St) :
  set_with remote f key path value b w = set_with remote g key path value c w.
Proof.
  unfold set_with, bind.
  destruct (callCommand remote "JSON.SET" _ w) as [[r|e] w1] eqn:E; [|reflexivity].
  assert (Hr : is_error r = false)
    by (apply (callCommand_ok_not_error "JSON.SET" [VStr key; VStr (pathMaker path); JSON_stringify value] w);
        now rewrite E).
  now rewrite Hr.
Qed.

Lemma type_log (key : string) (p : pin) (w : world St) :
  w_log (snd (type remote key p w)) =
  app (w_log w) [("JSON.TYPE", [VStr key; VStr (pathMaker p)])].
Proof. apply callCommand_log; reflexivity. Qed.

Lemma type_null (key : string) (p : pin) (w : world St) :
  remote "JSON.TYPE" [VStr key; VStr (pathMaker p)] (w_store w) = (Resolved VNull, w_store w) ->
  fst (type remote key p w) = Ok VNull /\ w_store (snd (type remote key p w)) = w_store w.
Proof.
  intro H; unfold type, callCommand; simpl. rewrite H; simpl; auto.
Qed.

End Dispatch.

(** C1 (code bug). When the direct [JSON.SET] of [set] is rejected, [set]
    rethrows that error at once, whatever its message and whatever the
    [recursive] flag: the rejection is thrown by [await] inside
    [$_callCommand] before [set] tests [r instanceof Error], so the
    ancestor walk is never run (the flag changes nothing at all). *)
Theorem set_rejection_propagates {St : Type} (remote : string -> list val -> St -> outcome * St)
    (key : string) (path : pin) (value : val) (recursive : bool) (w : world St)
    (e : val) (st' : St)
    (Hrej : remote "JSON.SET" [VStr key; VStr (pathMaker path); JSON_stringify value] (w_store w)
            = (Rejected e, st')) :
  fst (set remote key path value recursive w) = Throw e /\
  w_log (snd (set remote key path value recursive w)) =
    app (w_log w) [("JSON.SET", [VStr key; VStr (pathMaker path); JSON_stringify value])] /\
  w_store (snd (set remote key path value recursive w)) = st' /\
  set remote key path value true w = set remote key path value false w.
Proof.
  split; [|split; [|split]].
  - unfold set, set_with, bind, callCommand; simpl; rewrite Hrej; reflexivity.
  - unfold set, set_with, bind, callCommand; simpl; rewrite Hrej; reflexivity.
  - unfold set, set_with, bind, callCommand; simpl; rewrite Hrej; reflexivity.
  - apply set_with_fallback_unreachable.
Qed.

Lemma set_rejection_propagates_witness :
  missing_ancestor_message "ERR new objects must be created at the root" = true /\
  fst (set RedisServer.remote "K" (PArr [SStr "a"; SStr "b"; SStr "c"]) (VNum 42) true (world0 []))
    = Throw (VErr "ERR new objects must be created at the root").
Proof.
  split; [reflexivity|].
  exact (proj1 (set_rejection_propagates RedisServer.remote "K" (PArr [SStr "a"; SStr "b"; SStr "c"])
                  (VNum 42) true (world0 []) (VErr "ERR new objects must be created at the root") []
                  eq_refl)).
Defined.

(** C2 (counterexample). With ["K"] holding [{a:{}}], the corrective write
    of the walk for [a.b.c] is not anchored at [a]. *)
Lemma walk_anchor_C2_counterexample :
  ~ exists v,
    set_calls (w_log (snd (findAndCreateParentObject RedisServer.remote "K" (PStr "a.b.c") (VNum 42)
                             (world0 store_a))))
    = [[VStr "K"; VStr (pathMaker (PArr [SStr "a"])); v]].
Proof. intros [v H]; vm_compute in H; inversion H. Qed.

(** C2 (amended). With ["K"] holding [{a:{}}], the walk for [a.b.c] and
    [42] probes [a.b] (null) then [a] (an object) and stops; it issues one
    corrective non-recursive write, at [a.b] (the child of the existing
    ancestor [a], not the root), of [{c:42}], and ["K"] then holds
    [{a:{b:{c:42}}}]. *)
Theorem walk_anchor_existing_parent :
  findAndCreateParentObject RedisServer.remote "K" (PStr "a.b.c") (VNum 42) (world0 store_a) =
  (Ok (VStr "OK"),
   mkWorld ["JSON.TYPE"; "JSON.SET"]
     [("K", VObj [("a", VObj [("b", VObj [("c", VNum 42)])])])]
     [("JSON.TYPE", [VStr "K"; VStr "['a']['b']"]);
      ("JSON.TYPE", [VStr "K"; VStr "['a']"]);
      ("JSON.SET", [VStr "K"; VStr "['a']['b']"; VStr (dquote "{`c`:42}")])]).
Proof. vm_compute; reflexivity. Qed.

(** C3 (code bug). With no document under ["K"], the recursive write of
    [42] at [["a","b","c"]] fails with the server's root message and leaves
    ["K"] absent, no probe being issued; the walk itself, run directly,
    probes up to the root and creates [{a:{b:{c:42}}}] with one write at [.]. *)
Theorem set_recursive_on_missing_key :
  set RedisServer.remote "K" (PArr [SStr "a"; SStr "b"; SStr "c"]) (VNum 42) true (world0 []) =
  (Throw (VErr "ERR new objects must be created at the root"),
   mkWorld ["JSON.SET"] [] [("JSON.SET", [VStr "K"; VStr "['a']['b']['c']"; VStr "42"])]) /\
  findAndCreateParentObject RedisServer.remote "K" (PArr [SStr "a"; SStr "b"; SStr "c"]) (VNum 42)
    (world0 []) =
  (Ok (VStr "OK"),
   mkWorld ["JSON.TYPE"; "JSON.SET"]
     [("K", VObj [("a", VObj [("b", VObj [("c", VNum 42)])])])]
     [("JSON.TYPE", [VStr "K"; VStr "['a']['b']"]);
      ("JSON.TYPE", [VStr "K"; VStr "['a']"]);
      ("JSON.TYPE", [VStr "K"; VStr "."]);
      ("JSON.SET", [VStr "K"; VStr "."; VStr (dquote "{`a`:{`b`:{`c`:42}}}")])]).
Proof. split; vm_compute; reflexivity. Qed.

(** ** The ancestor walk *)

Lemma nest_snoc (segs : list seg) (x : seg) (v : val) :
  nest (app segs [x]) v = nest segs (VObj [(seg_text x, v)]).
Proof. unfold nest; now rewrite fold_right_app. Qed.

Section Walk.

Context {St : Type}.
Variable remote : string -> list val -> St -> outcome * St.
Variable key : string.

Lemma walk_spec (rp : list seg) (v : val) (w : world St) :
  exists probes,
    w_log (snd (findAndCreate_loop remote key rp v w)) = app (w_log w) probes /\
    Forall (fun c => fst c = "JSON.TYPE") probes /\
    (List.length probes <= List.length rp)%nat /\
    (forall p' sv, fst (findAndCreate_loop remote key rp v w) = Ok (p', sv) ->
       exists rd rest, rp = app rd rest /\ p' = rev rest /\ sv = nest (rev rd) v /\
         List.length probes = (List.length rd + match rest with [] => 0 | _ => 1 end)%nat).
Proof.
  revert v w; induction rp as [|x rp IH]; intros v w.
  - exists []; simpl; rewrite app_nil_r.
    repeat split; auto.
    intros p' sv H; injection H as <- <-; exists [], []; simpl; auto.
  - cbn [findAndCreate_loop]; unfold bind.
    pose proof (type_log remote key (PStr (pathMaker (PArr (rev rp)))) w) as Hl.
    destruct (type remote key (PStr (pathMaker (PArr (rev rp)))) w) as [[t|e] w1] eqn:Et;
      simpl in Hl.
    + destruct (negb (is_null t)).
      * eexists; split; [exact Hl|].
        split; [repeat constructor|]. split; [simpl; lia|].
        intros p' sv H; injection H as <- <-.
        exists [], (x :: rp); simpl; auto.
      * destruct (IH (VObj [(seg_text x, v)]) w1) as (probes & H1 & H2 & H3 & H4).
        eexists; split; [rewrite H1, Hl, <- app_assoc; reflexivity|].
        split; [constructor; [reflexivity | exact H2]|].
        split; [simpl; lia|].
        intros p' sv H; destruct (H4 p' sv H) as (rd & rest & E1 & E2 & E3 & E4).
        exists (x :: rd), rest; subst; simpl.
        split; [reflexivity|]. split; [reflexivity|].
        split; [symmetry; apply nest_snoc|]. simpl in E4; lia.
    + eexists; split; [exact Hl|].
      split; [repeat constructor|]. split; [simpl; lia|].
      intros p' sv H; discriminate.
Qed.

Hypothesis type_always_null :
  forall args st, remote "JSON.TYPE" args st = (Resolved VNull, st).

Lemma walk_all_null (rp : list seg) (v : val) (w : world St) :
  fst (findAndCreate_loop remote key rp v w) = Ok ([], nest (rev rp) v).
Proof.
  revert v w; induction rp as [|x rp IH]; intros v w; [reflexivity|].
  cbn [findAndCreate_loop]; unfold bind.
  destruct (type_null remote key (PStr (pathMaker (PArr (rev rp)))) w (type_always_null _ _))
    as [Ht _].
  destruct (type remote key (PStr (pathMaker (PArr (rev rp)))) w) as [[t|e] w1];
    simpl in Ht; [|discriminate].
  injection Ht as ->; simpl.
  rewrite IH; simpl; now rewrite nest_snoc.
Qed.

End Walk.

(** C4 (counterexample). With ["K"] holding [{a:{}}], the walk over
    [["a","b"]] runs one iteration (one probe, of [a]) that stops it without
    removing a segment or adding a nesting level. *)
Lemma walk_C4_counterexample :
  findAndCreate_loop RedisServer.remote "K" (rev [SStr "a"; SStr "b"]) (VNum 42) (world0 store_a) =
  (Ok ([SStr "a"; SStr "b"], VNum 42),
   mkWorld ["JSON.TYPE"] store_a [("JSON.TYPE", [VStr "K"; VStr "['a']"])]).
Proof. vm_compute; reflexivity. Qed.

(** C4 (amended). Each iteration of the walk issues one type probe, so it
    runs at most [len(path)] iterations and always ends.  Every iteration
    whose probe is null removes the last segment and wraps the value once
    in a single-key object keyed by it; an iteration whose probe is
    non-null stops the walk, removing and wrapping nothing.  So the walk
    ends with the path split into the kept prefix and the dropped segments,
    the value nested once per dropped segment, and as many probes as
    dropped segments (plus the stopping one); when every probe is null it
    reaches the empty path (the root) with the value nested over the whole
    path. *)
Theorem findAndCreate_walk {St : Type} (remote : string -> list val -> St -> outcome * St)
    (key : string) (paths : list seg) (v : val) (w : world St) :
  exists probes,
    w_log (snd (findAndCreate_loop remote key (rev paths) v w)) = app (w_log w) probes /\
    Forall (fun c => fst c = "JSON.TYPE") probes /\
    (List.length probes <= List.length paths)%nat /\
    (forall p' sv, fst (findAndCreate_loop remote key (rev paths) v w) = Ok (p', sv) ->
       exists dropped, paths = app p' dropped /\ sv = nest dropped v /\
         List.length probes = (List.length dropped + match p' with [] => 0 | _ => 1 end)%nat) /\
    ((forall args st, remote "JSON.TYPE" args st = (Resolved VNull, st)) ->
       fst (findAndCreate_loop remote key (rev paths) v w) = Ok ([], nest paths v)).
Proof.
  destruct (walk_spec remote key (rev paths) v w) as (probes & H1 & H2 & H3 & H4).
  exists probes; split; [exact H1|]. split; [exact H2|].
  split; [rewrite length_rev in H3; exact H3|].
  split.
  - intros p' sv H; destruct (H4 p' sv H) as (rd & rest & E1 & E2 & E3 & E4).
    exists (rev rd); split; [|split; [exact E3|]].
    + rewrite <- (rev_involutive paths), E1, rev_app_distr, E2; reflexivity.
    + rewrite E4, length_rev, E2; destruct rest as [|y rest]; [reflexivity|].
      simpl; destruct (rev rest ++ [y])%list eqn:Ey; [|reflexivity].
      destruct (rev rest); discriminate.
  - intro Hn; rewrite (walk_all_null remote key Hn (rev paths) v w), rev_involutive; reflexivity.
Qed.

(** ** Multi-key read and [arrpop] *)

Lemma obj_set_fresh (json : list (string * val)) (k : string) (v : val) :
  ~ In k (map fst json) -> obj_set json k v = app json [(k, v)].
Proof.
  induction json as [|[k' v'] json IH]; simpl; intro H; [reflexivity|].
  destruct (String.eqb_spec k k') as [->|Hne]; [exfalso; auto|].
  rewrite IH; auto.
Qed.




Lemma redis_arrlen_read_only (args : list val) (st : RedisServer.store) :
  snd (RedisServer.remote "JSON.ARRLEN" args st) = st.
Proof.
  unfold RedisServer.remote; simpl.
  repeat match goal with
  | |- context [match ?x with _ => _ end] => destruct x
  end; reflexivity.
Qed.

(* ------------------------------------------------------------------ *)
(** ** The JSON round trip *)

Lemma json_ser_arr (l : list val) :
  json_ser (VArr l) = Some ("[" ++ join "," (ser_elements l) ++ "]").
Proof.
  reflexivity.
Qed.

Lemma json_ser_obj (ps : list (string * val)) :
  json_ser (VObj ps) = Some ("{" ++ join "," (ser_members ps) ++ "}").
Proof.
  reflexivity.
Qed.

Lemma list_of_string_app (a b : string) :
  list_of_string (a ++ b) = app (list_of_string a) (list_of_string b).
Proof. induction a as [|c a IH]; simpl; [reflexivity | now rewrite IH]. Qed.

Lemma list_of_string_of_list (l : list ascii) : list_of_string (string_of_list l) = l.
Proof. induction l as [|c l IH]; simpl; [reflexivity | now rewrite IH]. Qed.

Lemma quote_chars_cons (c : ascii) (l : list ascii) :
  quote_chars (c :: l) = app (quote_chars [c]) (quote_chars l).
Proof. simpl. now rewrite app_nil_r. Qed.

Lemma p_string_quote_char (c : ascii) (rest : list ascii) :
  p_string (app (quote_chars [c]) rest) =
  match p_string rest with Some (s, r) => Some (c :: s, r) | None => None end.
Proof. destruct c as [[] [] [] [] [] [] [] []]; reflexivity. Qed.

Lemma p_string_quote (l r : list ascii) :
  p_string (app (quote_chars l) (dq :: r)) = Some (l, r).
Proof.
  induction l as [|c l IH]; [reflexivity|].
  rewrite quote_chars_cons, <- app_assoc, p_string_quote_char, IH; reflexivity.
Qed.

Lemma json_quote_chars (s : string) :
  list_of_string (json_quote s) = dq :: app (quote_chars (list_of_string s)) [dq].
Proof. unfold json_quote. now rewrite list_of_string_of_list. Qed.

(* numbers *)
Lemma uint_digits (d : Decimal.uint) :
  forallb is_digit (list_of_string (NilEmpty.string_of_uint d)) = true.
Proof. induction d; simpl; auto. Qed.

Lemma take_digits_app (ds r : list ascii) :
  forallb is_digit ds = true -> stop r -> take_digits (app ds r) = (ds, r).
Proof.
  intros Hd Hr. induction ds as [|c ds IH]; simpl in *.
  - destruct Hr as [->|[r' [->|[->| ->]]]]; reflexivity.
  - apply andb_true_iff in Hd as [Hc Hd]. rewrite Hc, IH; auto.
Qed.

Lemma digits_value_acc (d : Decimal.uint) (acc : positive) :
  digits_value (Zpos acc) (list_of_string (NilEmpty.string_of_uint d)) = Zpos (Pos.of_uint_acc d acc).
Proof.
  revert acc; induction d; intro acc;
    cbn [digits_value list_of_string NilEmpty.string_of_uint Pos.of_uint_acc]; try reflexivity;
    rewrite <- IHd; f_equal;
    lazymatch goal with |- context [Z.of_nat ?e] =>
      let z := eval vm_compute in (Z.of_nat e) in change (Z.of_nat e) with z end;
    rewrite ?Pos2Z.inj_add, Pos2Z.inj_mul; lia.
Qed.

Lemma to_uint_lead (p : positive) :
  match Pos.to_uint p with Decimal.D0 _ | Decimal.Nil => False | _ => True end.
Proof.
  pose proof (DecimalPos.Unsigned.to_uint_nonzero p) as Hnz.
  pose proof (DecimalPos.Unsigned.to_uint_nonnil p) as Hnn.
  destruct (Pos.to_uint p) as [|u|u|u|u|u|u|u|u|u|u] eqn:E; try exact I; [contradiction|].
  assert (H1 : Pos.of_uint u = Npos p).
  { rewrite <- (DecimalPos.Unsigned.of_to p), E; reflexivity. }
  pose proof (DecimalPos.Unsigned.to_of u) as H2. rewrite H1 in H2. simpl in H2. rewrite E in H2.
  unfold Decimal.unorm in H2. destruct (Decimal.nzhead u) eqn:E2; try discriminate.
  - injection H2 as ->. apply Hnz; reflexivity.
  - injection H2 as ->. exact (DecimalFacts.nzhead_nonzero _ _ E2).
Qed.

Lemma is_digit_not_minus (c : ascii) : is_digit c = true -> Ascii.eqb c "-" = false.
Proof. intro H; destruct c as [[] [] [] [] [] [] [] []]; try discriminate H; reflexivity. Qed.

Lemma p_value_numeral (f : nat) (c : ascii) (l : list ascii) :
  (is_digit c || Ascii.eqb c "-") = true -> p_value (S f) (c :: l) = p_number (c :: l).
Proof. intro H; destruct c as [[] [] [] [] [] [] [] []]; try discriminate H; reflexivity. Qed.

Lemma p_number_digits (neg : bool) (c : ascii) (ds r : list ascii) :
  is_digit c = true -> Ascii.eqb c "0" = false -> forallb is_digit ds = true -> stop r ->
  p_number (app (if neg then ["-"%char] else []) (c :: app ds r)) =
  Some (VNum (let n := digits_value 0 (c :: ds) in if neg then (- n)%Z else n), r).
Proof.
  intros Hc H0 Hd Hr.
  assert (Ht : take_digits (c :: app ds r) = (c :: ds, r))
    by (apply (take_digits_app (c :: ds)); [simpl; rewrite Hc; exact Hd | exact Hr]).
  destruct neg; unfold p_number; cbn [app].
  - replace (Ascii.eqb "-" "-") with true by reflexivity. rewrite H0, Hc, Ht.
    destruct Hr as [->|[r' [->|[->| ->]]]]; reflexivity.
  - rewrite (is_digit_not_minus c Hc), H0, Hc, Ht.
    destruct Hr as [->|[r' [->|[->| ->]]]]; reflexivity.
Qed.

Lemma p_value_num (f : nat) (n : Z) (r : list ascii) : stop r ->
  p_value (S f) (app (list_of_string (Z_to_js_string n)) r) = Some (VNum n, r).
Proof.
  intro Hr. destruct n as [|p|p].
  - destruct Hr as [->|[r' [->|[->| ->]]]]; reflexivity.
  - pose proof (to_uint_lead p) as Hl. pose proof (DecimalPos.Unsigned.of_to p) as Ho.
    pose proof (uint_digits (Pos.to_uint p)) as Hd.
    unfold Z_to_js_string; simpl Z.to_int; unfold NilEmpty.string_of_int.
    destruct (Pos.to_uint p) as [|u|u|u|u|u|u|u|u|u|u]; try contradiction;
    cbn [NilEmpty.string_of_uint list_of_string forallb app] in Hd |- *;
    simpl in Ho; injection Ho as Ho;
    rewrite p_value_numeral by reflexivity;
    apply andb_true_iff in Hd as [_ Hd];
    (refine (eq_trans (p_number_digits false _ _ _ _ _ Hd Hr) _);
     [reflexivity | reflexivity | cbn [digits_value]; simpl (0 * 10 + _)%Z;
      rewrite digits_value_acc, Ho; reflexivity]).
  - pose proof (to_uint_lead p) as Hl. pose proof (DecimalPos.Unsigned.of_to p) as Ho.
    pose proof (uint_digits (Pos.to_uint p)) as Hd.
    unfold Z_to_js_string; simpl Z.to_int; unfold NilEmpty.string_of_int.
    destruct (Pos.to_uint p) as [|u|u|u|u|u|u|u|u|u|u]; try contradiction;
    cbn [NilEmpty.string_of_uint list_of_string forallb app] in Hd |- *;
    simpl in Ho; injection Ho as Ho;
    rewrite p_value_numeral by reflexivity;
    apply andb_true_iff in Hd as [_ Hd];
    (refine (eq_trans (p_number_digits true _ _ _ _ _ Hd Hr) _);
     [reflexivity | reflexivity | cbn [digits_value]; simpl (0 * 10 + _)%Z;
      rewrite digits_value_acc, Ho; reflexivity]).
Qed.

Lemma p_value_open_arr (f : nat) (c : ascii) (l : list ascii) :
  (json_ws c || Ascii.eqb c "]" || Ascii.eqb c "}") = false ->
  p_value (S f) ("["%char :: c :: l) = p_elements f (c :: l) [].
Proof. intro H; destruct c as [[] [] [] [] [] [] [] []]; try discriminate H; reflexivity. Qed.

Lemma numeral_start (c : ascii) :
  (is_digit c || Ascii.eqb c "-") = true -> (json_ws c || Ascii.eqb c "]" || Ascii.eqb c "}") = false.
Proof. intro H; destruct c as [[] [] [] [] [] [] [] []]; try discriminate H; reflexivity. Qed.

Lemma num_text_start (n : Z) :
  exists c l, list_of_string (Z_to_js_string n) = c :: l /\ (is_digit c || Ascii.eqb c "-") = true.
Proof.
  destruct n as [|p|p]; [eexists; eexists; split; reflexivity| |];
  pose proof (to_uint_lead p) as Hl;
  unfold Z_to_js_string; simpl Z.to_int; unfold NilEmpty.string_of_int;
  destruct (Pos.to_uint p) as [|u|u|u|u|u|u|u|u|u|u]; try contradiction;
  (eexists; eexists; split; [cbn [NilEmpty.string_of_uint list_of_string]; reflexivity | reflexivity]).
Qed.

Lemma keys_distinct_cons (k : string) (x : val) (ps : list (string * val)) :
  keys_distinct ((k, x) :: ps) = true -> ~ In k (map fst ps) /\ keys_distinct ps = true.
Proof.
  simpl; intro H; apply andb_true_iff in H as [H1 H2]; split; [|exact H2].
  intro Hin; apply negb_true_iff in H1.
  assert (Hex : existsb (String.eqb k) (map fst ps) = true)
    by (apply existsb_exists; exists k; split; [exact Hin | apply String.eqb_refl]).
  congruence.
Qed.

Lemma elements_ok (l : list val) : Forall ser_ok l -> forallb json_plain l = true -> l <> [] ->
  start_ok (list_of_string (join "," (ser_elements l))) /\
  forall f r acc, (List.length (list_of_string (join "," (ser_elements l))) < f)%nat -> stop r ->
    p_elements f (app (list_of_string (join "," (ser_elements l))) ("]"%char :: r)) acc
    = Some (VArr (app acc l), r).
Proof.
  induction l as [|x l IH]; intros HF Hp Hne; [congruence|].
  inversion HF as [|? ? Hx HF']; subst. simpl in Hp; apply andb_true_iff in Hp as [Hpx Hpl].
  destruct (Hx Hpx) as (t & Ht & Hst & Hpt).
  simpl ser_elements; rewrite Ht.
  destruct l as [|y l'].
  - simpl join. split; [exact Hst|]. intros f r acc Hf Hr.
    destruct f as [|f]; [lia|]. cbn [p_elements].
    rewrite (Hpt f ("]"%char :: r)) by (lia || (right; eexists; right; left; reflexivity)).
    reflexivity.
  - destruct (IH HF' Hpl ltac:(discriminate)) as [_ IHp].
    assert (Hj : join "," (t :: ser_elements (y :: l')) = t ++ "," ++ join "," (ser_elements (y :: l'))).
    { simpl ser_elements. destruct (json_ser y); reflexivity. }
    rewrite Hj, !list_of_string_app. split.
    + destruct Hst as (c & l0 & E & Hc). rewrite E. exists c; eexists; split; [reflexivity | exact Hc].
    + intros f r acc Hf Hr. rewrite !length_app in Hf.
      destruct f as [|f]; [lia|]. cbn [p_elements]. rewrite <- !app_assoc.
      cbn [list_of_string app].
      rewrite (Hpt f) by (lia || (right; eexists; left; reflexivity)).
      cbn [skip_ws drop_while]. change (json_ws ",") with false. cbn iota beta.
      rewrite IHp; [now rewrite <- app_assoc | | exact Hr].
      change (List.length (list_of_string ",")) with 1%nat in Hf; lia.
Qed.

Lemma skip_ws_nonws (c : ascii) (l : list ascii) :
  json_ws c = false -> skip_ws (c :: l) = c :: l.
Proof. intro H; unfold skip_ws; simpl; now rewrite H. Qed.

Lemma join_cons (sep t : string) (ts : list string) :
  ts <> [] -> join sep (t :: ts) = t ++ sep ++ join sep ts.
Proof. destruct ts; [congruence | reflexivity]. Qed.

Ltac fuel_lia H :=
  rewrite ?list_of_string_app, ?json_quote_chars in H;
  cbn [List.length list_of_string app] in H; rewrite ?length_app in H;
  cbn [List.length] in H; lia.

Lemma members_ok (ps : list (string * val)) :
  Forall (fun kv => ser_ok (snd kv)) ps -> forallb (fun kv => json_plain (snd kv)) ps = true ->
  keys_distinct ps = true -> ps <> [] ->
  (exists l0, list_of_string (join "," (ser_members ps)) = dq :: l0) /\
  forall f r acc, (forall k, In k (map fst acc) -> ~ In k (map fst ps)) ->
    (List.length (list_of_string (join "," (ser_members ps))) < f)%nat -> stop r ->
    p_members f (app (list_of_string (join "," (ser_members ps))) ("}"%char :: r)) acc
    = Some (VObj (app acc ps), r).
Proof.
  induction ps as [|[k x] ps IH]; intros HF Hp Hd Hne; [congruence|].
  inversion HF as [|? ? Hx HF']; subst. simpl in Hp; apply andb_true_iff in Hp as [Hpx Hpl].
  destruct (keys_distinct_cons _ _ _ Hd) as [Hk Hd'].
  cbn [snd] in Hx, Hpx. destruct (Hx Hpx) as (t & Ht & Hst & Hpt).
  cbn [ser_members]; rewrite Ht.
  assert (Hm : list_of_string (json_quote k ++ ":" ++ t) =
               dq :: app (quote_chars (list_of_string k)) (dq :: ":"%char :: list_of_string t)).
  { rewrite !list_of_string_app, json_quote_chars. simpl. now rewrite <- app_assoc. }
  assert (Hstep : forall f rest acc, stop rest -> (List.length (list_of_string t) <= f)%nat ->
            ~ In k (map fst acc) ->
            p_members (S f) (app (list_of_string (json_quote k ++ ":" ++ t)) rest) acc =
            match skip_ws rest with
            | ","%char :: r4 => p_members f r4 (app acc [(k, x)])
            | "}"%char :: r4 => Some (VObj (app acc [(k, x)]), r4)
            | _ => None
            end).
  { intros f rest acc Hrest Hf Hacc. rewrite Hm. cbn [p_members app].
    rewrite skip_ws_nonws by reflexivity. rewrite Ascii.eqb_refl; cbn [negb].
    rewrite <- app_assoc; cbn [app]. rewrite p_string_quote.
    rewrite skip_ws_nonws by reflexivity. cbn iota beta.
    rewrite (Hpt f rest Hf Hrest). rewrite string_of_list_of_string, obj_set_fresh by exact Hacc.
    reflexivity. }
  destruct ps as [|[k2 y] ps'].
  - cbn [join ser_members]. split; [rewrite Hm; eexists; reflexivity|]. intros f r acc Hacc Hf Hr.
    destruct f as [|f]; [lia|].
    rewrite Hstep; [ | right; eexists; right; right; reflexivity | | ].
    + rewrite skip_ws_nonws by reflexivity. reflexivity.
    + fuel_lia Hf.
    + intro Hin. exact (Hacc k Hin (or_introl eq_refl)).
  - destruct (IH HF' Hpl Hd' ltac:(discriminate)) as [_ IHp].
    assert (Hne2 : ser_members ((k2, y) :: ps') <> []).
    { inversion HF' as [|? ? Hy _]; subst. cbn [snd] in Hy.
      simpl in Hpl; apply andb_true_iff in Hpl as [Hpy _].
      destruct (Hy Hpy) as (t2 & Ht2 & _). simpl. rewrite Ht2. discriminate. }
    rewrite (join_cons _ _ _ Hne2). split.
    + rewrite list_of_string_app, Hm. eexists; reflexivity.
    + intros f r acc Hacc Hf Hr.
      destruct f as [|f]; [lia|].
      replace (app (list_of_string ((json_quote k ++ ":" ++ t) ++ "," ++ join "," (ser_members ((k2, y) :: ps'))))
                 ("}"%char :: r))
        with (app (list_of_string (json_quote k ++ ":" ++ t))
                 (","%char :: app (list_of_string (join "," (ser_members ((k2, y) :: ps')))) ("}"%char :: r)))
        by (rewrite (list_of_string_app (json_quote k ++ ":" ++ t)), list_of_string_app, <- !app_assoc; reflexivity).
      rewrite Hstep.
      * rewrite skip_ws_nonws by reflexivity. cbn iota beta.
        rewrite IHp; [now rewrite <- app_assoc | | | exact Hr].
        -- intros k' Hin Hin2. apply in_map_iff in Hin as [[k0 v0] [Hk0 Hin]].
           cbn [fst] in Hk0; subst k0. apply in_app_or in Hin as [Hin|Hin].
           ++ apply (Hacc k'); [apply in_map_iff; exists (k', v0); auto | right; exact Hin2].
           ++ destruct Hin as [Heq|[]]; injection Heq as <- _. exact (Hk Hin2).
        -- fuel_lia Hf.
      * right; eexists; left; reflexivity.
      * fuel_lia Hf.
      * intro Hin. exact (Hacc k Hin (or_introl eq_refl)).
Qed.

Lemma p_value_dq (f : nat) (l : list ascii) :
  p_value (S f) (dq :: l) =
  match p_string l with Some (s, r') => Some (VStr (string_of_list s), r') | None => None end.
Proof. reflexivity. Qed.

Lemma ser_parse (v : val) : ser_ok v.
Proof.
  induction v as [| |b|n|s|l IH|ps IH|m] using val_ind'; intro Hp; try discriminate Hp.
  - exists "null"; split; [reflexivity|]; split; [eexists; eexists; split; reflexivity|].
    intros [|f] r Hf _; [simpl in Hf; lia | reflexivity].
  - destruct b; [exists "true" | exists "false"]; (split; [reflexivity|]);
      (split; [eexists; eexists; split; reflexivity|]);
      intros [|f] r Hf _; (simpl in Hf; lia) || reflexivity.
  - exists (Z_to_js_string n); split; [reflexivity|].
    destruct (num_text_start n) as (c & l & E & Hc). split.
    + exists c, l; split; [exact E | exact (numeral_start c Hc)].
    + intros [|f] r Hf Hr; [rewrite E in Hf; simpl in Hf; lia | exact (p_value_num f n r Hr)].
  - exists (json_quote s); split; [reflexivity|]. split.
    + rewrite json_quote_chars; eexists; eexists; split; reflexivity.
    + intros [|f] r Hf Hr; [rewrite json_quote_chars in Hf; simpl in Hf; lia|].
      rewrite json_quote_chars; cbn [app]; rewrite p_value_dq, <- app_assoc; cbn [app].
      now rewrite p_string_quote, string_of_list_of_string.
  - exists ("[" ++ join "," (ser_elements l) ++ "]"); split; [exact (json_ser_arr l)|].
    split; [eexists; eexists; split; reflexivity|].
    intros f r Hf Hr. rewrite !list_of_string_app in *. cbn [list_of_string app] in *.
    destruct f as [|f]; [simpl in Hf; lia|]. rewrite <- app_assoc; cbn [app].
    simpl in Hp. destruct l as [|x l'].
    + reflexivity.
    + destruct (elements_ok (x :: l') IH Hp ltac:(discriminate)) as [(c & l0 & E & Hc) Hel].
      rewrite E; cbn [app]. rewrite p_value_open_arr by exact Hc.
      replace (c :: app l0 ("]"%char :: r)) with (app (c :: l0) ("]"%char :: r)) by reflexivity.
      rewrite <- E.
      rewrite Hel; [reflexivity | | exact Hr].
      cbn [List.length] in Hf; rewrite length_app in Hf; cbn [List.length] in Hf; lia.
  - exists ("{" ++ join "," (ser_members ps) ++ "}"); split; [exact (json_ser_obj ps)|].
    split; [eexists; eexists; split; reflexivity|].
    simpl in Hp; apply andb_true_iff in Hp as [Hd Hp].
    intros f r Hf Hr. rewrite !list_of_string_app in *. cbn [list_of_string app] in *.
    destruct f as [|f]; [simpl in Hf; lia|]. rewrite <- app_assoc; cbn [app].
    destruct ps as [|[k x] ps'].
    + reflexivity.
    + destruct (members_ok ((k, x) :: ps') IH Hp Hd ltac:(discriminate)) as [[l0 E] Hmem].
      rewrite E; cbn [app].
      transitivity (p_members f (app (dq :: l0) ("}"%char :: r)) []); [reflexivity|].
      rewrite <- E.
      rewrite Hmem; [reflexivity | intros k' [] | | exact Hr].
      cbn [List.length] in Hf; rewrite length_app in Hf; cbn [List.length] in Hf; lia.
Qed.

(** Round trip *)
Lemma json_parse_ser (v : val) (t : string) :
  json_plain v = true -> json_ser v = Some t -> json_parse t = Some v.
Proof.
  intros Hp Ht. destruct (ser_parse v Hp) as (t' & Ht' & _ & Hpar).
  rewrite Ht in Ht'; injection Ht' as <-.
  unfold json_parse. rewrite <- (app_nil_r (list_of_string t)) at 2.
  rewrite Hpar; [reflexivity | lia | left; reflexivity].
Qed.

(** ** Further properties of the client *)

Lemma lookup_obj_set (st : list (string * val)) (k : string) (v : val) :
  RedisServer.lookup_key (obj_set st k v) k = Some v.
Proof.
  induction st as [|[k' v'] st IH]; unfold RedisServer.lookup_key in *; simpl.
  - now rewrite String.eqb_refl.
  - destruct (String.eqb k k') eqn:E; simpl.
    + now rewrite String.eqb_refl.
    + rewrite String.eqb_sym, E. exact IH.
Qed.

Lemma safety_parse_ser (v : val) :
  json_plain v = true -> safetyJsonParse (JSON_stringify v) = v.
Proof.
  intro Hp. destruct (ser_parse v Hp) as (t & Ht & _).
  unfold JSON_stringify; rewrite Ht. unfold safetyJsonParse; simpl.
  now rewrite (json_parse_ser v t Hp Ht).
Qed.

(** X1. For a JSON value (no [undefined], no Error instance, no duplicate
    object key) whose numbers are safe integers and whose object keys are
    not array indices, [$_safetyJsonParse(JSON.stringify(v))] gives [v]
    back: the text [set] sends is read back as the value it came from. *)
Theorem safetyJsonParse_stringify (v : val) (Hp : json_plain v = true) (Hs : js_safe v = true) :
  safetyJsonParse (JSON_stringify v) = v.
Proof. exact (safety_parse_ser v Hp). Qed.

Lemma safetyJsonParse_stringify_witness :
  json_plain (VObj [("a", VArr [VNum (-12); VNull; VStr "x"]); ("b", VBool true)]) = true /\
  js_safe (VObj [("a", VArr [VNum (-12); VNull; VStr "x"]); ("b", VBool true)]) = true /\
  safetyJsonParse (JSON_stringify (VObj [("a", VArr [VNum (-12); VNull; VStr "x"]); ("b", VBool true)]))
  = VObj [("a", VArr [VNum (-12); VNull; VStr "x"]); ("b", VBool true)].
Proof. split; [reflexivity | split; [reflexivity | apply safetyJsonParse_stringify; reflexivity]]. Defined.

Lemma callCommand_resolved {St : Type} (remote : string -> list val -> St -> outcome * St)
    (cmd : string) (args : list val) (w : world St) (r : val) (st' : St) :
  existsb (String.eqb cmd) supportedCommands = true ->
  remote cmd args (w_store w) = (Resolved r, st') ->
  fst (callCommand remote cmd args w) = (if is_error r then Throw r else Ok (safetyJsonParse r)) /\
  w_store (snd (callCommand remote cmd args w)) = st'.
Proof.
  intros Hs Hr; unfold callCommand; rewrite Hs, Hr; simpl.
  destruct (is_error r); simpl; auto.
Qed.

Lemma redis_set_root (st : RedisServer.store) (key t : string) (v : val) :
  json_parse t = Some v ->
  RedisServer.remote "JSON.SET" [VStr key; VStr "."; VStr t] st = (Resolved (VStr "OK"), obj_set st key v).
Proof. intro H; unfold RedisServer.remote; cbn -[json_parse obj_set]. now rewrite H. Qed.

Lemma redis_get_root (st : RedisServer.store) (key : string) (v : val) :
  RedisServer.remote "JSON.GET" [VStr key; VStr "."] (obj_set st key v) =
  (Resolved (RedisServer.json_text v), obj_set st key v).
Proof.
  unfold RedisServer.remote; cbn -[obj_set RedisServer.lookup_key RedisServer.json_text].
  now rewrite lookup_obj_set.
Qed.

(** X2. Against the model server, [set(key, '.', v)] followed by
    [get(key, '.')] resolves to [v] for a JSON value [v] as in X1 (safe
    integers, no array-index keys), whatever the store held before and
    whatever [recursive] is. *)
Theorem set_then_get_root (w : world RedisServer.store) (key : string) (v : val)
    (recursive : bool) (Hp : json_plain v = true) (Hs : js_safe v = true) :
  fst ((_ <- set RedisServer.remote key (PStr ".") v recursive ;;
        get RedisServer.remote key (PStr ".")) w) = Ok v.
Proof.
  destruct (ser_parse v Hp) as (t & Ht & _).
  pose proof (json_parse_ser v t Hp Ht) as Hpar.
  assert (Hdot : pathMaker (PStr ".") = ".") by reflexivity.
  unfold set, set_with, bind. rewrite Hdot. unfold JSON_stringify; rewrite Ht.
  destruct (callCommand_resolved RedisServer.remote "JSON.SET" [VStr key; VStr "."; VStr t] w
              (VStr "OK") (obj_set (w_store w) key v) eq_refl (redis_set_root _ _ _ _ Hpar)) as [H1 H2].
  destruct (callCommand RedisServer.remote "JSON.SET" [VStr key; VStr "."; VStr t] w) as [o1 w1].
  cbn [fst snd] in H1, H2; subst o1. cbn [is_error]. unfold ret.
  replace (safetyJsonParse (VStr "OK")) with (VStr "OK") by reflexivity. cbn [is_error].
  unfold get; rewrite Hdot.
  destruct (callCommand_resolved RedisServer.remote "JSON.GET" [VStr key; VStr "."] w1
              (RedisServer.json_text v) (obj_set (w_store w) key v) eq_refl) as [H3 _].
  { rewrite H2. apply redis_get_root. }
  rewrite H3. unfold RedisServer.json_text. rewrite Ht. cbn [is_error].
  unfold safetyJsonParse; simpl. now rewrite Hpar.
Qed.

Lemma existsb_eqb_in (x : string) (l : list string) :
  existsb (String.eqb x) l = true <-> In x l.
Proof.
  rewrite existsb_exists. split.
  - intros [y [Hy Heq]]. apply String.eqb_eq in Heq; subst; exact Hy.
  - intro H; exists x; split; [exact H | apply String.eqb_refl].
Qed.

Lemma keeps_ret {St A : Type} (a : A) : keeps_cache (St:=St) (ret a).
Proof. intros w H; exact H. Qed.

Lemma keeps_throw {St A : Type} (e : val) : keeps_cache (St:=St) (A:=A) (throw e).
Proof. intros w H; exact H. Qed.

Lemma keeps_bind {St A B : Type} (m : M St A) (k : A -> M St B) :
  keeps_cache m -> (forall a, keeps_cache (k a)) -> keeps_cache (bind m k).
Proof.
  intros Hm Hk w H; unfold bind.
  specialize (Hm w H). destruct (m w) as [[a|e] w']; [exact (Hk a w' Hm) | exact Hm].
Qed.

Lemma keeps_callCommand {St : Type} (remote : string -> list val -> St -> outcome * St)
    (cmd : string) (args : list val) :
  keeps_cache (callCommand remote cmd args).
Proof.
  intros w [Hnd Hincl]; unfold callCommand.
  destruct (existsb (String.eqb cmd) supportedCommands) eqn:Hs; [|split; assumption].
  cbn [negb].
  assert (Hc : cache_ok (mkWorld (if existsb (String.eqb cmd) (w_cache w) then w_cache w
                                  else app (w_cache w) [cmd]) (w_store w) (w_log w))).
  { destruct (existsb (String.eqb cmd) (w_cache w)) eqn:Hin; split; cbn [w_cache]; try assumption.
    - apply NoDup_app; [exact Hnd | constructor; [intros []| constructor] |].
      intros x Hx [<-|[]]. apply existsb_eqb_in in Hx. congruence.
    - intros x Hx; apply in_app_or in Hx as [Hx|[<-|[]]]; [exact (Hincl x Hx)|].
      apply existsb_eqb_in; exact Hs. }
  destruct (remote cmd args (w_store w)) as [[r|e] st]; [destruct (is_error r)|]; exact Hc.
Qed.

Lemma js_index_world {St : Type} (r : val) (i : nat) (w : world St) :
  snd (js_index r i w) = w.
Proof. destruct r; reflexivity. Qed.

Lemma mget_loop_world {St : Type} (r : val) (i : nat) (ks : list string) (proto : bool)
    (json : list (string * val)) (w : world St) :
  snd (mget_loop r i ks proto json w) = w.
Proof.
  revert i proto json; induction ks as [|k ks IH]; intros i proto json; [reflexivity|].
  cbn [mget_loop]; unfold bind.
  pose proof (js_index_world r i w) as Hw.
  destruct (js_index r i w) as [[x|e] w']; cbn [snd] in Hw; subst w'; [|reflexivity].
  destruct (js_assign proto json k (safetyJsonParse x)); apply IH.
Qed.

Lemma keeps_mget_loop {St : Type} (r : val) (i : nat) (ks : list string) (proto : bool)
    (json : list (string * val)) :
  keeps_cache (St:=St) (mget_loop r i ks proto json).
Proof. intros w H; now rewrite mget_loop_world. Qed.

Lemma keeps_findAndCreate_loop {St : Type} (remote : string -> list val -> St -> outcome * St)
    (key : string) (rpaths : list seg) (v : val) :
  keeps_cache (findAndCreate_loop remote key rpaths v).
Proof.
  revert v; induction rpaths as [|last rinit IH]; intro v; cbn [findAndCreate_loop];
    [apply keeps_ret|].
  apply keeps_bind; [apply keeps_callCommand|]. intro t.
  destruct (negb (is_null t)); [apply keeps_ret | apply IH].
Qed.

Lemma keeps_set_with {St : Type} (remote : string -> list val -> St -> outcome * St)
    (f : string -> pin -> val -> M St val) (key : string) (path : pin) (value : val) (b : bool) :
  (forall k p v, keeps_cache (f k p v)) -> keeps_cache (set_with remote f key path value b).
Proof.
  intro Hf; unfold set_with. apply keeps_bind; [apply keeps_callCommand|]. intro r.
  destruct (is_error r); [|apply keeps_ret].
  destruct (b && missing_ancestor_message (err_message r)); [|apply keeps_throw].
  apply keeps_bind; [apply Hf|]. intro rc; destruct (is_error rc); [apply keeps_throw | apply keeps_ret].
Qed.

Lemma keeps_findAndCreateParentObject {St : Type} (remote : string -> list val -> St -> outcome * St)
    (key : string) (path : pin) (value : val) :
  keeps_cache (findAndCreateParentObject remote key path value).
Proof.
  unfold findAndCreateParentObject. apply keeps_bind; [apply keeps_findAndCreate_loop|].
  intros [paths' sv]. apply keeps_set_with. intros; apply keeps_throw.
Qed.

(** X3. [$_callCommand] keeps the handle cache well formed (supported names,
    each at most once); a supported command ends up in the cache and appends
    exactly one call to the log; an unsupported command is rejected with
    [Error('Unsupported Command')] and leaves the world unchanged. *)
Theorem callCommand_cache {St : Type} (remote : string -> list val -> St -> outcome * St)
    (cmd : string) (args : list val) (w : world St) (Hw : cache_ok w) :
  cache_ok (snd (callCommand remote cmd args w)) /\
  (In cmd supportedCommands ->
     In cmd (w_cache (snd (callCommand remote cmd args w))) /\
     w_log (snd (callCommand remote cmd args w)) = app (w_log w) [(cmd, args)]) /\
  (~ In cmd supportedCommands ->
     callCommand remote cmd args w = (Throw (VErr "Unsupported Command"), w)).
Proof.
  split; [exact (keeps_callCommand remote cmd args w Hw)|]. split.
  - intro Hin. apply existsb_eqb_in in Hin. split; [|exact (proj1 (callCommand_log remote cmd args w Hin))].
    unfold callCommand; rewrite Hin; cbn [negb].
    assert (Hc : In cmd (if existsb (String.eqb cmd) (w_cache w) then w_cache w
                         else app (w_cache w) [cmd])).
    { destruct (existsb (String.eqb cmd) (w_cache w)) eqn:E;
        [now apply existsb_eqb_in | apply in_or_app; right; left; reflexivity]. }
    destruct (remote cmd args (w_store w)) as [[r|e] st]; [destruct (is_error r)|]; exact Hc.
  - intro Hn. unfold callCommand.
    destruct (existsb (String.eqb cmd) supportedCommands) eqn:E; [|reflexivity].
    exfalso; apply Hn, existsb_eqb_in; exact E.
Qed.

Lemma callCommand_cache_witness :
  cache_ok (world0 [("K", VNum 1)]) /\
  cache_ok (snd (callCommand RedisServer.remote "JSON.GET" [VStr "K"; VStr "."] (world0 [("K", VNum 1)]))).
Proof.
  assert (H : cache_ok (world0 [("K", VNum 1)])) by (split; [constructor | intros x []]).
  split; [exact H | exact (proj1 (callCommand_cache RedisServer.remote "JSON.GET" [VStr "K"; VStr "."] _ H))].
Defined.

(** X4. Every public method keeps the handle cache well formed: whatever they
    do, the cache only ever holds supported command names, each once. *)
Theorem methods_keep_cache {St : Type} (remote : string -> list val -> St -> outcome * St) :
  (forall key path, keeps_cache (get remote key path)) /\
  (forall key path, keeps_cache (type remote key path)) /\
  (forall keys path, keeps_cache (mget remote keys path)) /\
  (forall keys path, keeps_cache (mget_str remote keys path)) /\
  (forall key path value recursive, keeps_cache (set remote key path value recursive)) /\
  (forall key path value, keeps_cache (findAndCreateParentObject remote key path value)) /\
  (forall key path, keeps_cache (del remote key path)) /\
  (forall key path, keeps_cache (forgot remote key path)) /\
  (forall key path value, keeps_cache (inc remote key path value)) /\
  (forall key path value, keeps_cache (mul remote key path value)) /\
  (forall key path value, keeps_cache (strand remote key path value)) /\
  (forall key path, keeps_cache (strlen remote key path)) /\
  (forall key path values, keeps_cache (arrand remote key path values)) /\
  (forall key path value, keeps_cache (arridx remote key path value)) /\
  (forall key path index values, keeps_cache (arrins remote key path index values)) /\
  (forall key path, keeps_cache (arrlen remote key path)) /\
  (forall key path index, keeps_cache (arrpop remote key path index)) /\
  (forall key path start end_, keeps_cache (arrtrim remote key path start end_)) /\
  (forall key path, keeps_cache (objkeys remote key path)) /\
  (forall key path, keeps_cache (objlen remote key path)) /\
  (forall args, keeps_cache (debug remote args)) /\
  (forall key path, keeps_cache (resp remote key path)).
Proof.
  repeat apply conj; repeat lazymatch goal with |- forall _, _ => intro end;
    try apply keeps_callCommand.
  - unfold mget. apply keeps_bind; [apply keeps_callCommand|]. intro r.
    destruct (is_error r); [apply keeps_throw|].
    apply keeps_bind; [apply keeps_mget_loop | intro; apply keeps_ret].
  - unfold mget_str. apply keeps_bind; [apply keeps_callCommand|]. intro r.
    destruct (is_error r); [apply keeps_throw|].
    apply keeps_bind; [apply keeps_mget_loop | intro; apply keeps_ret].
  - apply keeps_set_with, keeps_findAndCreateParentObject.
  - apply keeps_findAndCreateParentObject.
Qed.

(** X5. The [r instanceof Error] test of [mget] never fires: [mget] behaves
    exactly as the same code without that test. *)
Theorem mget_error_check_unreachable {St : Type} (remote : string -> list val -> St -> outcome * St)
    (keys : list string) (path : pin) (w : world St) :
  mget remote keys path w =
  (r <- callCommand remote "JSON.MGET" (app (map VStr keys) [VStr (pathMaker path)]) ;;
   json <- mget_loop r 0 keys true [] ;; ret (VObj json)) w.
Proof.
  unfold mget, bind at 1 3.
  destruct (callCommand remote "JSON.MGET" (app (map VStr keys) [VStr (pathMaker path)]) w)
    as [[r|e] w1] eqn:E; [|reflexivity].
  assert (Hr : is_error r = false)
    by (apply (callCommand_ok_not_error remote "JSON.MGET" (app (map VStr keys) [VStr (pathMaker path)]) w);
        now rewrite E).
  now rewrite Hr.
Qed.

Lemma obj_set_forall (P : string * val -> Prop) (json : list (string * val)) (k : string) (v : val) :
  P (k, v) -> Forall P json -> Forall P (obj_set json k v).
Proof.
  intros Hk H; induction H as [|[k' v'] json Hx H IH]; cbn [obj_set]; [constructor; auto|].
  destruct (String.eqb k k'); constructor; auto.
Qed.

Lemma js_assign_forall (P : string * val -> Prop) (proto : bool) (json : list (string * val))
    (k : string) (v : val) :
  P (k, v) -> Forall P json -> Forall P (snd (js_assign proto json k v)).
Proof.
  intros Hk H; unfold js_assign.
  destruct (proto && String.eqb k "__proto__"); [exact H | exact (obj_set_forall P json k v Hk H)].
Qed.

Lemma mget_loop_keys {St : Type} (P : string * val -> Prop) (r : val) (i : nat) (ks : list string)
    (proto : bool) (json json' : list (string * val)) (w w' : world St) :
  (forall k v, In k ks -> P (k, v)) -> Forall P json ->
  mget_loop r i ks proto json w = (Ok json', w') -> Forall P json'.
Proof.
  revert i proto json w; induction ks as [|k ks IH]; intros i proto json w Hks Hj H;
    cbn [mget_loop] in H.
  - injection H as <- _; exact Hj.
  - unfold bind in H. pose proof (js_index_world r i w) as Hw.
    destruct (js_index r i w) as [[x|e] w1]; [|discriminate]. cbn [snd] in Hw; subst w1.
    pose proof (js_assign_forall P proto json k (safetyJsonParse x)) as HF.
    destruct (js_assign proto json k (safetyJsonParse x)) as [proto' json1].
    refine (IH _ _ _ _ _ _ H); [intros; apply Hks; right; assumption|].
    apply HF; [apply Hks; left; reflexivity | exact Hj].
Qed.

(** X7. [mget] given a single string [keys] sends it as one key, but builds
    its result from the characters of [keys]: every property name of the
    result has length 1, so a key of two or more characters is never a
    property of the result. *)
Theorem mget_string_key {St : Type} (remote : string -> list val -> St -> outcome * St)
    (keys : string) (path : pin) (w : world St) (props : list (string * val))
    (Hok : fst (mget_str remote keys path w) = Ok (VObj props)) :
  w_log (snd (mget_str remote keys path w)) =
    app (w_log w) [("JSON.MGET", [VStr keys; VStr (pathMaker path)])] /\
  Forall (fun kv => String.length (fst kv) = 1%nat) props /\
  (1 < String.length keys -> ~ In keys (map fst props)).
Proof.
  unfold mget_str, bind in *. cbn [arrayMaker app] in *.
  pose proof (callCommand_log remote "JSON.MGET" [VStr keys; VStr (pathMaker path)] w eq_refl) as [Hlog _].
  destruct (callCommand remote "JSON.MGET" [VStr keys; VStr (pathMaker path)] w)
    as [[r|e] w1] eqn:E; [|discriminate].
  cbn [snd] in Hlog.
  assert (Hr : is_error r = false)
    by (apply (callCommand_ok_not_error remote "JSON.MGET" [VStr keys; VStr (pathMaker path)] w);
        now rewrite E).
  rewrite Hr in *.
  pose proof (mget_loop_world r 0 (map (fun c => String c "") (list_of_string keys)) true [] w1) as Hw.
  destruct (mget_loop r 0 (map (fun c => String c "") (list_of_string keys)) true [] w1)
    as [[json|e] w2] eqn:E2; [|discriminate].
  cbn [snd] in Hw; subst w2. cbn in Hok. injection Hok as <-.
  assert (HF : Forall (fun kv => String.length (fst kv) = 1%nat) json).
  { refine (mget_loop_keys _ r 0 _ true [] json w1 w1 _ (Forall_nil _) E2).
    intros k v Hk. apply in_map_iff in Hk as [c [<- _]]. reflexivity. }
  split; [exact Hlog|]. split; [exact HF|].
  intros Hlen Hin. apply in_map_iff in Hin as [[k v] [Hk Hin]]. cbn [fst] in Hk; subst k.
  rewrite Forall_forall in HF. specialize (HF _ Hin). cbn [fst] in HF. lia.
Qed.

Lemma mget_string_key_witness :
  fst (mget_str RedisServer.remote "ab" (PStr ".") (world0 [("ab", VNum 1)]))
    = Ok (VObj [("a", VNum 1); ("b", VUndef)]) /\
  ~ In "ab" (map fst [("a", VNum 1); ("b", VUndef)]).
Proof.
  assert (H : fst (mget_str RedisServer.remote "ab" (PStr ".") (world0 [("ab", VNum 1)]))
              = Ok (VObj [("a", VNum 1); ("b", VUndef)])) by reflexivity.
  split; [exact H|].
  exact (proj2 (proj2 (mget_string_key RedisServer.remote "ab" (PStr ".") _ _ H)) (le_n 2)).
Defined.

(** X6. [mget] with an empty key list still sends [JSON.MGET] with the path
    alone, and resolves to the empty object when that call resolves. *)
Theorem mget_no_keys {St : Type} (remote : string -> list val -> St -> outcome * St)
    (path : pin) (w : world St) :
  fst (mget remote [] path w) =
    match fst (callCommand remote "JSON.MGET" [VStr (pathMaker path)] w) with
    | Ok _ => Ok (VObj [])
    | Throw e => Throw e
    end /\
  w_log (snd (mget remote [] path w)) = app (w_log w) [("JSON.MGET", [VStr (pathMaker path)])].
Proof.
  pose proof (callCommand_log remote "JSON.MGET" [VStr (pathMaker path)] w eq_refl) as [Hlog _].
  unfold mget, bind. cbn [map app].
  destruct (callCommand remote "JSON.MGET" [VStr (pathMaker path)] w) as [[r|e] w1] eqn:E;
    cbn [snd] in Hlog; [|split; [reflexivity | exact Hlog]].
  assert (Hr : is_error r = false)
    by (apply (callCommand_ok_not_error remote "JSON.MGET" [VStr (pathMaker path)] w);
        now rewrite E).
  rewrite Hr. split; [reflexivity | exact Hlog].
Qed.

(** X9. The constructor throws exactly when [opts] is [null]. *)
Theorem constructor_throws_iff_null (opts : val) :
  (exists e, constructor opts = Throw e) <-> opts = VNull.
Proof.
  split.
  - intros [e H]. destruct opts; try reflexivity; discriminate H.
  - intros ->; eexists; reflexivity.
Qed.

(** X10. The constructor reads [ports] and [hosts], not [port] and [host]:
    without [ports] and [hosts] the options hold port 6379 and host
    ['localhost'], whatever [port] and [host] the argument gives. *)
Theorem constructor_default_port_host (props : list (string * val))
    (Hports : find (fun kv => String.eqb (fst kv) "ports") props = None)
    (Hhosts : find (fun kv => String.eqb (fst kv) "hosts") props = None) :
  exists c, constructor (VObj props) = Ok c /\
    get_option (c_opts c) "port" = Ok (VNum 6379) /\
    get_option (c_opts c) "host" = Ok (VStr "localhost").
Proof.
  unfold constructor; cbn [typeof_object]. unfold get_option at 1 2. rewrite Hports, Hhosts.
  cbn [rbind]. eexists; split; [reflexivity|]. split; reflexivity.
Qed.

Lemma constructor_default_port_host_witness :
  exists c, constructor (VObj [("port", VNum 7000); ("host", VStr "redis.example")]) = Ok c /\
    get_option (c_opts c) "port" = Ok (VNum 6379) /\
    get_option (c_opts c) "host" = Ok (VStr "localhost").
Proof. apply constructor_default_port_host; reflexivity. Defined.

Lemma set_then_get_root_witness :
  json_plain (VObj [("a", VArr [VNum 1; VStr "x"])]) = true /\
  js_safe (VObj [("a", VArr [VNum 1; VStr "x"])]) = true /\
  fst ((_ <- set RedisServer.remote "K" (PStr ".") (VObj [("a", VArr [VNum 1; VStr "x"])]) false ;;
        get RedisServer.remote "K" (PStr ".")) (world0 [])) = Ok (VObj [("a", VArr [VNum 1; VStr "x"])]).
Proof. split; [reflexivity | split; [reflexivity | apply set_then_get_root; reflexivity]]. Defined.

(* ------------------------------------------------------------------ *)
(** ** Multi-key read: the result *)







(* ------------------------------------------------------------------ *)
(** ** [arrpop] *)

Lemma safety_num (n : Z) : safetyJsonParse (VNum n) = VNum n.
Proof.
  unfold safetyJsonParse; cbn [typeof_object to_js_string].
  now rewrite (json_parse_ser (VNum n) (Z_to_js_string n) eq_refl eq_refl).
Qed.

Lemma redis_arrlen_reply (st : RedisServer.store) (key p : string) (segs : list seg) (d : val)
    (l : list val) :
  RedisServer.parse_path p = Some segs -> RedisServer.lookup_key st key = Some d ->
  RedisServer.doc_lookup d segs = Some (VArr l) ->
  RedisServer.remote "JSON.ARRLEN" [VStr key; VStr p] st =
  (Resolved (VNum (Z.of_nat (List.length l))), st).
Proof.
  intros Hp Hk Hd. unfold RedisServer.remote.
  cbn -[RedisServer.parse_path RedisServer.lookup_key RedisServer.doc_lookup].
  rewrite Hp, Hk, Hd; reflexivity.
Qed.

Lemma redis_arrlen_extra (st : RedisServer.store) (key p : string) (segs : list seg) (i : val) :
  RedisServer.parse_path p = Some segs ->
  RedisServer.remote "JSON.ARRLEN" [VStr key; VStr p; i] st = (RedisServer.wrong_arity, st).
Proof.
  intros Hp. unfold RedisServer.remote.
  cbn -[RedisServer.parse_path RedisServer.lookup_key RedisServer.doc_lookup RedisServer.wrong_arity].
  rewrite Hp; reflexivity.
Qed.

(** C10 (counterexample). With an index, [arrpop] passes it to
    [JSON.ARRLEN] as a third argument, which the server rejects: the call
    throws where [arrlen] returns the array's length. *)
Lemma arrpop_C10_counterexample :
  fst (arrpop RedisServer.remote "K" (PStr "a") (Some (VNum 0))
         (world0 [("K", VObj [("a", VArr [VNum 1; VNum 2])])]))
  = Throw (VErr "ERR wrong number of arguments") /\
  fst (arrlen RedisServer.remote "K" (PStr "a") (world0 [("K", VObj [("a", VArr [VNum 1; VNum 2])])]))
  = Ok (VNum 2).
Proof. split; reflexivity. Qed.

(** C10 (amended). [arrpop] dispatches [JSON.ARRLEN], the command [arrlen]
    sends, never an array pop: one call, with the index (when given)
    appended to the arguments of [arrlen]. Without an index it is [arrlen],
    and against the server it resolves to the length of the array at the
    path. With an index the server rejects the extra argument and [arrpop]
    throws. Either way the server's store is unchanged: no element is
    removed. *)
Theorem arrpop_sends_arrlen :
  (forall (St : Type) (remote : string -> list val -> St -> outcome * St)
          (key : string) (path : pin) (index : option val) (w : world St),
     arrpop remote key path index w =
       callCommand remote "JSON.ARRLEN"
         (app [VStr key; VStr (pathMaker path)] (match index with Some i => [i] | None => [] end)) w /\
     arrpop remote key path None w = arrlen remote key path w /\
     w_log (snd (arrpop remote key path index w)) =
       app (w_log w) [("JSON.ARRLEN",
                       app [VStr key; VStr (pathMaker path)]
                           (match index with Some i => [i] | None => [] end))]) /\
  (forall key path index (w : world RedisServer.store),
     w_store (snd (arrpop RedisServer.remote key path index w)) = w_store w) /\
  (forall key path (w : world RedisServer.store) (d : val) (segs : list seg) (l : list val),
     RedisServer.lookup_key (w_store w) key = Some d ->
     RedisServer.parse_path (pathMaker path) = Some segs ->
     RedisServer.doc_lookup d segs = Some (VArr l) ->
     fst (arrpop RedisServer.remote key path None w) = Ok (VNum (Z.of_nat (List.length l)))) /\
  (forall key path (i : val) (w : world RedisServer.store) (segs : list seg),
     RedisServer.parse_path (pathMaker path) = Some segs ->
     fst (arrpop RedisServer.remote key path (Some i) w) =
       Throw (VErr "ERR wrong number of arguments")).
Proof.
  split; [|split; [|split]].
  - intros St remote key path index w.
    split; [destruct index; reflexivity|].
    split; [reflexivity|].
    unfold arrpop; destruct index; apply callCommand_log; reflexivity.
  - intros key path index w.
    unfold arrpop.
    destruct index;
      (rewrite (proj2 (callCommand_log RedisServer.remote "JSON.ARRLEN" _ w eq_refl));
       apply redis_arrlen_read_only).
  - intros key path w d segs l Hk Hp Hd.
    unfold arrpop, callCommand; cbn [app].
    change (existsb (String.eqb "JSON.ARRLEN") supportedCommands) with true; cbn [negb].
    rewrite (redis_arrlen_reply (w_store w) key (pathMaker path) segs d l Hp Hk Hd).
    cbn [is_error fst]. now rewrite safety_num.
  - intros key path i w segs Hp.
    unfold arrpop, callCommand; cbn [app].
    change (existsb (String.eqb "JSON.ARRLEN") supportedCommands) with true; cbn [negb].
    rewrite (redis_arrlen_extra (w_store w) key (pathMaker path) segs i Hp).
    reflexivity.
Qed.

Lemma arrpop_sends_arrlen_witness :
  RedisServer.lookup_key [("K", VObj [("a", VArr [VNum 1; VNum 2])])] "K"
    = Some (VObj [("a", VArr [VNum 1; VNum 2])]) /\
  RedisServer.parse_path (pathMaker (PStr "a")) = Some [SStr "a"] /\
  fst (arrpop RedisServer.remote "K" (PStr "a") None (world0 [("K", VObj [("a", VArr [VNum 1; VNum 2])])]))
    = Ok (VNum 2) /\
  fst (arrpop RedisServer.remote "K" (PStr "a") (Some (VNum 0))
         (world0 [("K", VObj [("a", VArr [VNum 1; VNum 2])])]))
    = Throw (VErr "ERR wrong number of arguments").
Proof.
  split; [reflexivity|]. split; [reflexivity|]. split.
  - exact (proj1 (proj2 (proj2 arrpop_sends_arrlen)) "K" (PStr "a")
             (world0 [("K", VObj [("a", VArr [VNum 1; VNum 2])])])
             (VObj [("a", VArr [VNum 1; VNum 2])]) [SStr "a"] [VNum 1; VNum 2]
             eq_refl eq_refl eq_refl).
  - exact (proj2 (proj2 (proj2 arrpop_sends_arrlen)) "K" (PStr "a") (VNum 0)
             (world0 [("K", VObj [("a", VArr [VNum 1; VNum 2])])]) [SStr "a"] eq_refl).
Defined.
